(** * PriorityQueue (src/functions/pluck.ts): a binary min-heap with
      insertion-order tie-breaking and a replaceable comparator.

    The class is embedded as a record for the instance fields and one
    state-and-exception computation per method.  A JavaScript [number]
    that holds an index, a length, a sequence id or a comparator result
    is an integer of [Z] (the values the code produces for them are
    integers far below 2^53; NaN and the infinities are left out).
    An exception leaves the instance as the method had mutated it so
    far, so a computation returns its completion together with the
    state. *)

From Stdlib Require Import ZArith Lia Ascii.
From stdpp Require Import base option list sorting strings gmap.

Local Open Scope Z_scope.

(** ** Completions *)

(** What a method can throw.  [TypeError] is the engine's error for
    reading a property of [undefined]; [Error] is [new Error(message)];
    a comparator supplied by the caller throws one of the two.
    [Unmodelled] is not a JavaScript exception: it marks the places
    where the source would put [undefined] or [null] into an array or
    grow it with a hole ([swap] on a missing slot, [this.heap[0] = last]
    with a missing [last], [out.push] of a [null]), which the lists of
    this model cannot hold.  No public method reaches them: what a
    public method throws is what the comparator threw ([enqueue_any],
    [dequeue_any], [setComparator_any], [toSortedArray_any]). *)
Inductive Exn : Type :=
  | TypeError
  | Error (message : string)
  | Unmodelled.

Inductive completion (A : Type) : Type :=
  | Normal (a : A)
  | Throw (e : Exn).
Arguments Normal {A} a.
Arguments Throw {A} e.

(** [export type Comparator<T> = (a: T, b: T) => number], which may throw. *)
Definition Comparator (T : Type) : Type := T -> T -> completion Z.

(** What [defaultComparator] asks of a value: [typeof a === "number"]
    (then its magnitude), [typeof a === "string"] (then its text). *)
Class JsTypeof (T : Type) : Type := {
  asNumber : T -> option Z;
  asString : T -> option string
}.

(** [String.prototype.localeCompare], supplied by the host. *)
Class Collation : Type := { localeCompare : string -> string -> Z }.

(** The message of the error thrown by [defaultComparator]. *)
Definition noComparatorMessage : string :=
  "No comparator provided for element type; provide a Comparator<T>".

Section Queue.
Context {T : Type} `{JsTypeof T} `{Collation}.

(** [type Entry<T> = { value: T; id: number }] *)
Record Entry : Type := mkEntry { value : T; id : Z }.

(** The private fields of [class PriorityQueue<T>]. *)
Record PriorityQueue : Type := mkQueue {
  heap : list Entry;
  comparator : Comparator T;
  seq : Z
}.

Definition setHeap (q : PriorityQueue) (h : list Entry) : PriorityQueue :=
  {| heap := h; comparator := comparator q; seq := seq q |}.
Definition setComparatorField (q : PriorityQueue) (c : Comparator T) : PriorityQueue :=
  {| heap := heap q; comparator := c; seq := seq q |}.
Definition setSeq (q : PriorityQueue) (s : Z) : PriorityQueue :=
  {| heap := heap q; comparator := comparator q; seq := s |}.

(** ** The method monad: state [this], result a completion *)

Definition M (A : Type) : Type := PriorityQueue -> completion A * PriorityQueue.

Definition ret {A} (a : A) : M A := fun q => (Normal a, q).
Definition throw {A} (e : Exn) : M A := fun q => (Throw e, q).
Definition bind {A B} (m : M A) (k : A -> M B) : M B :=
  fun q => match m q with
           | (Normal a, q') => k a q'
           | (Throw e, q') => (Throw e, q')
           end.

Notation "x <- m ;; k" := (bind m (fun x => k))
  (at level 100, m at next level, right associativity).
Notation "m ;;; k" := (bind m (fun _ => k))
  (at level 100, right associativity).

(** [a[i]] for an array [a]: [undefined] ([None]) outside [0 .. length-1]. *)
Definition at_index (h : list Entry) (i : Z) : option Entry :=
  if i <? 0 then None else h !! Z.to_nat i.

(** [this.heap[i]] *)
Definition heapAt (i : Z) : M (option Entry) := fun q => (Normal (at_index (heap q) i), q).
(** [this.heap.length] *)
Definition heapLength : M Z := fun q => (Normal (Z.of_nat (length (heap q))), q).

(** ** Index arithmetic *)

(** [Math.floor((idx - 1) / 2)]; [Z.div] rounds down, so [getParent 0 = -1]. *)
Definition getParent (idx : Z) : Z := (idx - 1) / 2.
Definition getRight (idx : Z) : Z := 2 * idx + 2.
Definition getLeft (idx : Z) : Z := 2 * idx + 1.

(** ** Ordering of entries *)

(** The body of [compareEntries] for two entries under comparator [c]:
    [const c = comparator(a.value, b.value); return c !== 0 ? c : a.id - b.id]. *)
Definition order (c : Comparator T) (a b : Entry) : completion Z :=
  match c (value a) (value b) with
  | Normal z => Normal (if z =? 0 then id a - id b else z)
  | Throw e => Throw e
  end.

(** [compareEntries(a, b)] on what two array reads returned: [a.value]
    on [undefined] is a [TypeError]. *)
Definition compareEntries (a b : option Entry) : M Z :=
  fun q => match a, b with
           | Some a, Some b => (order (comparator q) a b, q)
           | _, _ => (Throw TypeError, q)
           end.

(** [swap(a, b)]: [tmp = heap[a]; heap[a] = heap[b]; heap[b] = tmp]. *)
Definition swap (a b : Z) : M unit :=
  fun q => match at_index (heap q) a, at_index (heap q) b with
           | Some x, Some y =>
               (Normal tt, setHeap q (<[Z.to_nat b := x]> (<[Z.to_nat a := y]> (heap q))))
           | _, _ => (Throw Unmodelled, q)
           end.

(** ** siftUp *)

(** The [while (i > 0)] loop.  [i] strictly decreases, so [Z.to_nat i]
    iterations suffice ([siftUp_loop_fuel]). *)
Fixpoint siftUp_loop (fuel : nat) (i : Z) : M unit :=
  match fuel with
  | O => ret tt
  | S fuel' =>
      if 0 <? i then
        let p := getParent i in
        a <- heapAt i ;;
        b <- heapAt p ;;
        c <- compareEntries a b ;;
        if 0 <=? c then ret tt
        else swap i p ;;; siftUp_loop fuel' p
      else ret tt
  end.

Definition siftUp (idx : Z) : M unit := siftUp_loop (Z.to_nat idx) idx.

(** ** siftDown *)

(** The [while (true)] loop, [n] being [this.heap.length] read once
    before it.  [i] strictly increases below [n], so [n - idx]
    iterations suffice ([siftDown_loop_fuel]). *)
Fixpoint siftDown_loop (fuel : nat) (n i : Z) : M unit :=
  match fuel with
  | O => ret tt
  | S fuel' =>
      let left := getLeft i in
      let right := getRight i in
      smallest <- (if left <? n then
                     a <- heapAt left ;;
                     b <- heapAt i ;;
                     c <- compareEntries a b ;;
                     ret (if c <? 0 then left else i)
                   else ret i) ;;
      smallest <- (if right <? n then
                     a <- heapAt right ;;
                     b <- heapAt smallest ;;
                     c <- compareEntries a b ;;
                     ret (if c <? 0 then right else smallest)
                   else ret smallest) ;;
      if smallest =? i then ret tt
      else swap i smallest ;;; siftDown_loop fuel' n smallest
  end.

Definition siftDown (idx : Z) : M unit :=
  n <- heapLength ;;
  siftDown_loop (Z.to_nat (n - idx)) n idx.

(** The loop shared by [setComparator] and [toSortedArray]:
    [for (let i = Math.floor(length / 2) - 1; i >= 0; i--) siftDown(i)]. *)
Fixpoint heapify_loop (fuel : nat) (i : Z) : M unit :=
  match fuel with
  | O => ret tt
  | S fuel' =>
      if 0 <=? i then siftDown i ;;; heapify_loop fuel' (i - 1)
      else ret tt
  end.

Definition heapify : M unit :=
  n <- heapLength ;;
  let i0 := n / 2 - 1 in
  heapify_loop (Z.to_nat (i0 + 1)) i0.

(** ** Public methods *)

Definition size : M Z := heapLength.

Definition isEmpty : M bool := fun q => (Normal (Z.of_nat (length (heap q)) =? 0), q).

(** [return this.heap[0]?.value ?? null].  [None] is [null]; the stored
    values of [T] are taken not to be [null] or [undefined] themselves. *)
Definition peek : M (option T) :=
  top <- heapAt 0 ;;
  ret (match top with Some e => Some (value e) | None => None end).

(** [this.heap.push(entry)] *)
Definition push (e : Entry) : M unit := fun q => (Normal tt, setHeap q (heap q ++ [e])).

(** [this.heap.pop()]: the last element, [undefined] on an empty array. *)
Definition pop : M (option Entry) :=
  fun q => (Normal (last (heap q)), setHeap q (removelast (heap q))).

(** [this.seq++] *)
Definition nextSeq : M Z := fun q => (Normal (seq q), setSeq q (seq q + 1)).

Definition enqueue (v : T) : M unit :=
  s <- nextSeq ;;
  push {| value := v; id := s |} ;;;
  n <- heapLength ;;
  siftUp (n - 1).

(** [this.heap[0] = last]: slot 0 is overwritten, or created when the
    array is empty. *)
Definition setRoot (e : option Entry) : M unit :=
  fun q => match e with
           | Some e => (Normal tt, setHeap q (e :: tail (heap q)))
           | None => (Throw Unmodelled, q)
           end.

Definition dequeue : M (option T) :=
  empty <- isEmpty ;;
  if empty then ret None
  else
    top <- heapAt 0 ;;
    last <- pop ;;
    empty' <- isEmpty ;;
    (if negb empty' then setRoot last ;;; siftDown 0 else ret tt) ;;;
    match top with
    | Some e => ret (Some (value e))
    | None => throw TypeError
    end.

Definition clear : M unit :=
  fun q => (Normal tt, {| heap := []; comparator := comparator q; seq := 0 |}).

Definition toArray : M (list T) := fun q => (Normal (map value (heap q)), q).

(** [while (!copy.isEmpty()) out.push(copy.dequeue()!)]: every round
    removes one entry, so [length] rounds suffice
    ([dequeueAll_loop_fuel]). *)
Fixpoint dequeueAll_loop (fuel : nat) (out : list T) : M (list T) :=
  match fuel with
  | O => ret out
  | S fuel' =>
      empty <- isEmpty ;;
      if empty then ret out
      else
        v <- dequeue ;;
        match v with
        | Some x => dequeueAll_loop fuel' (out ++ [x])
        | None => throw Unmodelled
        end
  end.

(** Dequeue until [isEmpty()], collecting the values in order. *)
Definition dequeueAll : M (list T) :=
  fun q => dequeueAll_loop (length (heap q)) [] q.

(** [function defaultComparator(a: unknown, b: unknown): number] *)
Definition defaultComparator : Comparator T :=
  fun a b =>
    match asNumber a, asNumber b with
    | Some x, Some y => Normal (x - y)
    | _, _ =>
        match asString a, asString b with
        | Some s, Some t => Normal (localeCompare s t)
        | _, _ => Throw (Error noComparatorMessage)
        end
    end.

(** The fields as initialised before the constructor body's loop:
    [heap = []], [comparator ?? defaultComparator], [seq = 0]. *)
Definition emptyQueue (c : option (Comparator T)) : PriorityQueue :=
  {| heap := []; comparator := default defaultComparator c; seq := 0 |}.

(** [for (const v of initial) this.enqueue(v)] *)
Fixpoint enqueueAll (vs : list T) : M unit :=
  match vs with
  | [] => ret tt
  | v :: vs' => enqueue v ;;; enqueueAll vs'
  end.

(** [constructor(comparator?, initial?)]: an exception in the loop
    leaves no instance. *)
Definition new (c : option (Comparator T)) (initial : option (list T))
  : completion PriorityQueue :=
  match initial with
  | None => Normal (emptyQueue c)
  | Some vs =>
      match enqueueAll vs (emptyQueue c) with
      | (Normal _, q) => Normal q
      | (Throw e, _) => Throw e
      end
  end.


(** [toSortedArray()]: works on [copy], a new instance; [this] is only read. *)
Definition toSortedArray : M (list T) :=
  fun q =>
    let copy := emptyQueue (Some (comparator q)) in
    let copy := setHeap copy
                  (heap copy ++ map (fun e => {| value := value e; id := id e |}) (heap q)) in
    let copy := setSeq copy (seq q) in
    (fst ((heapify ;;; dequeueAll) copy), q).

Definition setComparator (c : Comparator T) : M unit :=
  fun q => heapify (setComparatorField q c).

(** ** Specification vocabulary *)

(** [order(a, b) <= 0] and [order(a, b) < 0]: the comparison returns,
    and with that sign. *)
Definition ordered (c : Comparator T) (a b : Entry) : Prop :=
  exists z, order c a b = Normal z /\ z <= 0.
Definition before (c : Comparator T) (a b : Entry) : Prop :=
  exists z, order c a b = Normal z /\ z < 0.

(** The result of [order] as a number, for comparators that return. *)
Definition ordZ (c : Comparator T) (a b : Entry) : Z :=
  match order c a b with Normal z => z | Throw _ => 0 end.

(** The heap property of the storage [h] under comparator [c]: every
    non-root index is ordered after or equal to its parent. *)
Definition heapOrdered (c : Comparator T) (h : list Entry) : Prop :=
  forall i, 0 < i < Z.of_nat (length h) ->
    exists p e, at_index h (getParent i) = Some p /\ at_index h i = Some e /\
                ordered c p e.

Definition heapProperty (q : PriorityQueue) : Prop :=
  heapOrdered (comparator q) (heap q).

(** The heap property restricted to the parents at index [lo] or above,
    in terms of [ordZ]; the loops' invariants are stated with it. *)
Definition heapFrom (c : Comparator T) (lo : Z) (h : list Entry) : Prop :=
  forall k p e, 0 < k -> lo <= getParent k ->
    at_index h (getParent k) = Some p -> at_index h k = Some e ->
    ordZ c p e <= 0.

(** The invariant of [siftUp]'s loop at index [i]: every edge but the
    one above [i] is in order, and the children of [i] are already in
    order with the parent of [i]. *)
Definition siftUpInv (c : Comparator T) (h : list Entry) (i : Z) : Prop :=
  (forall k p e, 0 < k -> k <> i ->
     at_index h (getParent k) = Some p -> at_index h k = Some e ->
     ordZ c p e <= 0) /\
  (forall k g e, 0 < i -> 0 < k -> getParent k = i ->
     at_index h (getParent i) = Some g -> at_index h k = Some e ->
     ordZ c g e <= 0).

(** The invariant of [siftDown]'s loop at index [i], for the heap
    property from [lo] on: every edge but those below [i] is in order,
    and the children of [i] are in order with the parent of [i]. *)
Definition siftDownInv (c : Comparator T) (lo : Z) (h : list Entry) (i : Z) : Prop :=
  (forall k p e, 0 < k -> lo <= getParent k -> getParent k <> i ->
     at_index h (getParent k) = Some p -> at_index h k = Some e ->
     ordZ c p e <= 0) /\
  (forall k g e, 0 < i -> lo <= getParent i -> 0 < k -> getParent k = i ->
     at_index h (getParent i) = Some g -> at_index h k = Some e ->
     ordZ c g e <= 0).

(** The comparator contract on the values of [dom]: the comparator
    returns, the signs of [c a b] and [c b a] are opposite, and
    [c a b <= 0] is transitive -- a total preorder. *)
Record TotalPreorderOn (dom : T -> Prop) (c : Comparator T) : Prop := {
  tpo_returns : forall a b, dom a -> dom b -> exists z, c a b = Normal z;
  tpo_sgn : forall a b x y, dom a -> dom b ->
      c a b = Normal x -> c b a = Normal y -> Z.sgn y = - Z.sgn x;
  tpo_trans : forall a b d x y z, dom a -> dom b -> dom d ->
      c a b = Normal x -> c b d = Normal y -> c a d = Normal z ->
      x <= 0 -> y <= 0 -> z <= 0
}.

(** Every stored value lies in [dom]. *)
Definition valuesIn (dom : T -> Prop) (h : list Entry) : Prop :=
  forall e, e ∈ h -> dom (value e).

(** What a method leaves alone whatever it does to the order of the
    storage: the comparator, the counter, the stored entries. *)
Definition keeps (q q' : PriorityQueue) : Prop :=
  comparator q' = comparator q /\ seq q' = seq q /\ heap q' ≡ₚ heap q.

(** The exception [e] was thrown by the comparator of [q] on two
    entries of [h]. *)
Definition raisedBy (q : PriorityQueue) (h : list Entry) (e : Exn) : Prop :=
  exists a b, a ∈ h /\ b ∈ h /\ order (comparator q) a b = Throw e.

(** The insertion ids are pairwise distinct and below the counter. *)
Definition idsFresh (q : PriorityQueue) : Prop :=
  NoDup (map id (heap q)) /\ Forall (fun e => id e < seq q) (heap q).

(** A call of a public method by a client. *)
Inductive Call : Type :=
  | CallSize
  | CallIsEmpty
  | CallPeek
  | CallEnqueue (v : T)
  | CallDequeue
  | CallClear
  | CallToArray
  | CallToSortedArray
  | CallSetComparator (c : Comparator T).

(** The instance after the call, whether it returned or threw. *)
Definition after (k : Call) (q : PriorityQueue) : PriorityQueue :=
  match k with
  | CallSize => snd (size q)
  | CallIsEmpty => snd (isEmpty q)
  | CallPeek => snd (peek q)
  | CallEnqueue v => snd (enqueue v q)
  | CallDequeue => snd (dequeue q)
  | CallClear => snd (clear q)
  | CallToArray => snd (toArray q)
  | CallToSortedArray => snd (toSortedArray q)
  | CallSetComparator c => snd (setComparator c q)
  end.

(** The arguments of a call satisfy [okc] (comparators) and [okv] (values). *)
Definition callWith (okc : Comparator T -> Prop) (okv : T -> Prop) (k : Call) : Prop :=
  match k with
  | CallEnqueue v => okv v
  | CallSetComparator c => okc c
  | _ => True
  end.

(** The instances a client can hold: built by the constructor, then
    any sequence of public calls, with comparators in [okc] and values
    in [okv]. *)
Inductive reachable (okc : Comparator T -> Prop) (okv : T -> Prop)
  : PriorityQueue -> Prop :=
  | reach_new c initial q :
      okc (default defaultComparator c) ->
      (forall vs, initial = Some vs -> Forall okv vs) ->
      new c initial = Normal q ->
      reachable okc okv q
  | reach_call k q :
      reachable okc okv q -> callWith okc okv k ->
      reachable okc okv (after k q).

(** One of the two [if] statements in the body of [siftDown]'s loop:
    the candidate child replaces [smallest] when it is inside the
    storage and compares before it ([siftDown_loop_unfold]). *)
Definition pickSmaller (n candidate smallest : Z) : M Z :=
  if candidate <? n then
    a <- heapAt candidate ;;
    b <- heapAt smallest ;;
    c <- compareEntries a b ;;
    ret (if c <? 0 then candidate else smallest)
  else ret smallest.

(** The entries that enqueuing [vs] in order creates when the counter
    stands at [s]. *)
Fixpoint entriesFrom (s : Z) (vs : list T) : list Entry :=
  match vs with
  | [] => []
  | v :: vs' => mkEntry v s :: entriesFrom (s + 1) vs'
  end.

(** [before c] is a strict total order on the entries of [h]. *)
Record StrictTotalOrderOn (c : Comparator T) (h : list Entry) : Prop := {
  sto_irrefl : forall a, a ∈ h -> ~ before c a a;
  sto_trans : forall a b d, a ∈ h -> b ∈ h -> d ∈ h ->
      before c a b -> before c b d -> before c a d;
  sto_total : forall a b, a ∈ h -> b ∈ h -> a <> b -> before c a b \/ before c b a
}.

(** The comparator returns on every pair of values. *)
Definition neverThrows (c : Comparator T) : Prop :=
  forall a b, exists z, c a b = Normal z.

(** What the public methods maintain when every comparator keeps its
    contract on [dom] and every value comes from [dom]. *)
Definition wellFormed (dom : T -> Prop) (q : PriorityQueue) : Prop :=
  TotalPreorderOn dom (comparator q) /\ valuesIn dom (heap q) /\
  heapFrom (comparator q) 0 (heap q).

(** [n] calls of [dequeue()], collecting what they return. *)
Fixpoint dequeueN (n : nat) : M (list (option T)) :=
  match n with
  | O => ret []
  | S n' => v <- dequeue ;; vs <- dequeueN n' ;; ret (v :: vs)
  end.

End Queue.

Notation "x <- m ;; k" := (bind m (fun x => k))
  (at level 100, m at next level, right associativity).
Notation "m ;;; k" := (bind m (fun _ => k))
  (at level 100, right associativity).

(** ** Outcome of a public call *)

Section Outcome.
Context {T : Type} `{JsTypeof T} `{Collation}.

(** The exception a run ended with, if it threw. *)
Definition thrown {A : Type} (r : completion A * @PriorityQueue T) : option Exn :=
  match fst r with
  | Normal _ => None
  | Throw e => Some e
  end.

(** The exception the call [k] on [q] ends with, if any. *)
Definition exceptionOf (k : Call) (q : @PriorityQueue T) : option Exn :=
  match k with
  | CallSize => thrown (size q)
  | CallIsEmpty => thrown (isEmpty q)
  | CallPeek => thrown (peek q)
  | CallEnqueue v => thrown (enqueue v q)
  | CallDequeue => thrown (dequeue q)
  | CallClear => thrown (clear q)
  | CallToArray => thrown (toArray q)
  | CallToSortedArray => thrown (toSortedArray q)
  | CallSetComparator c => thrown (setComparator c q)
  end.

(** [c a b <= 0] on values: the comparator returns, and not with a
    positive number. *)
Definition notAfter (c : Comparator T) (a b : T) : Prop :=
  exists z, c a b = Normal z /\ z <= 0.

(** [c a b === 0]: the comparator takes [a] and [b] for equal. *)
Definition tiesWith (c : Comparator T) (x a : T) : bool :=
  match c a x with
  | Normal z => z =? 0
  | Throw _ => false
  end.

End Outcome.

(** * The helper functions *)

(** ** pluckDeep (src/functions/pluck.ts, line 1)

    [(key) => (obj) => key.split('.').reduce((accum, key) => accum[key], obj)] *)

Section Pluck.
Context {V : Type}.

(** [accum[key]], the property read of the engine: it looks through
    the prototype chain, runs getters, and throws a [TypeError] on
    [undefined] and [null].  The function does nothing else with its
    values, so the read is a parameter. *)
Variable getProperty : V -> string -> completion V.

(** [key.split('.')]: the pieces between the dots, in order; a key
    without a dot, the empty key too, is one piece.  (A Rocq string is
    a string of bytes; the byte of the dot occurs in no other
    character's encoding.) *)
Fixpoint splitDots (key : string) : list string :=
  match key with
  | EmptyString => [EmptyString]
  | String ch rest =>
      if Ascii.eqb ch "."%char then EmptyString :: splitDots rest
      else match splitDots rest with
           | piece :: pieces => String ch piece :: pieces
           | [] => [String ch EmptyString]
           end
  end.

(** [pieces.reduce((accum, key) => accum[key], accum)] *)
Fixpoint reduceGet (pieces : list string) (accum : V) : completion V :=
  match pieces with
  | [] => Normal accum
  | key :: pieces' =>
      match getProperty accum key with
      | Normal v => reduceGet pieces' v
      | Throw e => Throw e
      end
  end.

Definition pluckDeep (key : string) (obj : V) : completion V :=
  reduceGet (splitDots key) obj.

(** The key holds a dot. *)
Fixpoint hasDot (key : string) : bool :=
  match key with
  | EmptyString => false
  | String ch rest => Ascii.eqb ch "."%char || hasDot rest
  end.

End Pluck.

(** ** excludeKey (src/unnamed/part_000), isDefinedObject and
       removeUndefined (src/types/guards.ts)

    These work on plain data objects through [Object.entries] and
    [Object.fromEntries].  Such an object is the finite map of its own
    enumerable string-keyed properties; the order of the properties is
    not modelled. *)

(** A result of the model, or the mark that the source leaves the
    model at this point. *)
Inductive modelled (A : Type) : Type :=
  | Modelled (a : A)
  | OutsideModel.
Arguments Modelled {A} a.
Arguments OutsideModel {A}.

Section Objects.
Context {V : Type}.

(** [value === undefined] *)
Variable isUndefined : V -> bool.

(** [Object.entries(obj)] *)
Definition entries (obj : gmap string V) : list (string * V) := map_to_list obj.

(** [Object.fromEntries(pairs)]: the properties are defined in the
    order of the pairs, a later pair replacing an earlier one with its
    key. *)
Definition fromEntries (pairs : list (string * V)) : gmap string V :=
  foldl (fun obj kv => <[kv.1 := kv.2]> obj) ∅ pairs.

(** [(obj, key) =>
      Object.fromEntries(Object.entries(obj).filter(([i]) => i !== key))],
    for a key that is a string. *)
Definition excludeKey (obj : gmap string V) (key : string) : gmap string V :=
  fromEntries (filter (fun kv => kv.1 <> key) (entries obj)).

(** [!Object.entries(data).some((el) => el === undefined)]: [el] is the
    pair [[key, value]], an array, which is never [=== undefined]. *)
Definition isDefinedObject (data : gmap string V) : bool :=
  negb (existsb (fun el : string * V => false) (entries data)).

(** [obj[key] = value] on an object that started as [{}].  For the key
    ["__proto__"] the assignment runs the setter inherited from
    [Object.prototype], which defines no own property and may replace
    the prototype; what the later assignments then do depends on that
    prototype, and is left out of the model. *)
Definition assign (obj : gmap string V) (key : string) (value : V)
  : modelled (gmap string V) :=
  if String.eqb key "__proto__" then OutsideModel
  else Modelled (<[key := value]> obj).

(** [pairs.reduce((obj, [key, value]) => { obj[key] = value; return obj }, obj)] *)
Fixpoint reduceAssign (pairs : list (string * V)) (obj : gmap string V)
  : modelled (gmap string V) :=
  match pairs with
  | [] => Modelled obj
  | (key, value) :: pairs' =>
      match assign obj key value with
      | Modelled obj' => reduceAssign pairs' obj'
      | OutsideModel => OutsideModel
      end
  end.

Definition removeUndefined (data : gmap string V) : modelled (gmap string V) :=
  match reduceAssign
          (filter (fun kv => isUndefined kv.2 = false) (entries data)) ∅ with
  | Modelled undefinedsRemovidos =>
      Modelled (if isDefinedObject undefinedsRemovidos
                then undefinedsRemovidos else data)
  | OutsideModel => OutsideModel
  end.

End Objects.

(** ** Sample instances, for the examples *)

Module Sample.

(** JavaScript values by what [typeof] says of them. *)
Inductive JsValue : Type :=
  | JsNumber (n : Z)
  | JsString (s : string)
  | JsBoolean (b : bool)
  | JsObject (ref : nat).

#[export] Instance JsValue_typeof : JsTypeof JsValue := {|
  asNumber v := match v with JsNumber n => Some n | _ => None end;
  asString v := match v with JsString s => Some s | _ => None end
|}.

(** Code-unit order, standing for the collation of a locale. *)
#[export] Instance codeUnitCollation : Collation := {|
  localeCompare s t :=
    match String.compare s t with Lt => -1 | Eq => 0 | Gt => 1 end
|}.

#[export] Instance Z_typeof : JsTypeof Z := {|
  asNumber z := Some z;
  asString _ := None
|}.

(** [(a, b) => a - b] *)
Definition byDifference : Comparator Z := fun a b => Normal (a - b).

(** [(one, other) => one.priority - other.priority] of [main], on
    items [(priority, name)]. *)
Definition byPriority : Comparator (Z * string) := fun one other => Normal (fst one - fst other).

#[export] Instance Item_typeof : JsTypeof (Z * string) := {|
  asNumber _ := None;
  asString _ := None
|}.

(** [(a, b) => b - a] *)
Definition byReverseDifference : Comparator Z := fun a b => Normal (b - a).

(** A comparator that takes every two values for equal. *)
Definition allEqual : Comparator Z := fun _ _ => Normal 0.

(** [new PriorityQueue((a, b) => a - b, [5, 1, 4])] *)
Definition threeNumbers : PriorityQueue :=
  snd (enqueueAll [5; 1; 4] (emptyQueue (Some byDifference))).

(** [const q = new PriorityQueue(); q.enqueue(1)] *)
Definition oneNumber : PriorityQueue :=
  snd (enqueue (JsNumber 1) (emptyQueue None)).

(** ... followed by [q.enqueue(true)], which throws. *)
Definition numberAndBoolean : PriorityQueue :=
  snd (enqueue (JsBoolean true) oneNumber).

(** ... and by [q.enqueue(0)], which returns. *)
Definition mixedThree : PriorityQueue :=
  snd (enqueue (JsNumber 0) numberAndBoolean).

(** A storage that is no heap under [(a, b) => a - b]. *)
Definition unorderedNumbers : PriorityQueue :=
  {| heap := [mkEntry 5 0; mkEntry 1 1; mkEntry 4 2];
     comparator := byDifference; seq := 3 |}.

(** Values for [pluckDeep]: [undefined], numbers, and objects given by
    their properties. *)
Inductive Json : Type :=
  | JsonUndefined
  | JsonNumber (n : Z)
  | JsonObject (fields : JsonFields)
with JsonFields : Type :=
  | NoField
  | Field (key : string) (v : Json) (rest : JsonFields).

(** The value of the first field named [key], if there is one. *)
Fixpoint fieldOf (fields : JsonFields) (key : string) : option Json :=
  match fields with
  | NoField => None
  | Field k v rest => if String.eqb k key then Some v else fieldOf rest key
  end.

(** A property read on these values, own properties only: a
    [TypeError] on [undefined], [undefined] for what is not there. *)
Definition readJson (v : Json) (key : string) : completion Json :=
  match v with
  | JsonUndefined => Throw TypeError
  | JsonNumber _ => Normal JsonUndefined
  | JsonObject fields => Normal (default JsonUndefined (fieldOf fields key))
  end.

(** [{ a: { b: 7 } }] *)
Definition nested : Json :=
  JsonObject (Field "a" (JsonObject (Field "b" (JsonNumber 7) NoField)) NoField).

(** [{ a: 1, b: undefined }], a value being a number or [undefined]. *)
Definition halfDefined : gmap string (option Z) :=
  <["a"%string := Some 1]> (<["b"%string := None]> ∅).

(** [value === undefined] on these values. *)
Definition isNone (v : option Z) : bool :=
  match v with
  | None => true
  | Some _ => false
  end.

(** The items of [main], in the order it enqueues them. *)
Definition mainItems : list (Z * string) :=
  [(1, "Joe"); (1, "Anne"); (1, "Lucius"); (0, "June"); (1, "Mina");
   (1, "Lucene"); (2, "Carmen"); (0, "Mike"); (3, "Lisana"); (1, "Henry");
   (2, "Luna"); (0, "James")]%string.

End Sample.

(** * Properties *)

(** ** Index arithmetic *)

Lemma getParent_range (k : Z) : 0 < k -> 0 <= getParent k < k.
Proof. unfold getParent. intros Hk. Z.div_mod_to_equations. lia. Qed.

Lemma getParent_getLeft (i : Z) : getParent (getLeft i) = i.
Proof. unfold getParent, getLeft. Z.div_mod_to_equations. lia. Qed.

Lemma getParent_getRight (i : Z) : getParent (getRight i) = i.
Proof. unfold getParent, getRight. Z.div_mod_to_equations. lia. Qed.

Lemma child_of_parent (k : Z) :
  k = getLeft (getParent k) \/ k = getRight (getParent k).
Proof. unfold getParent, getLeft, getRight. Z.div_mod_to_equations. lia. Qed.

Lemma getParent_neg (k : Z) : k <= 0 -> getParent k < 0.
Proof. unfold getParent. intros Hk. Z.div_mod_to_equations. lia. Qed.

Section QueueTheory.
Context {T : Type} `{JsTypeof T} `{Collation}.
Implicit Types (h : list (@Entry T)) (q : @PriorityQueue T) (c : Comparator T)
  (vs : list T).

(** ** Array reads and [swap] *)

Lemma at_index_Some h i e :
  at_index h i = Some e <-> 0 <= i /\ h !! Z.to_nat i = Some e.
Proof.
  unfold at_index. destruct (Z.ltb_spec i 0); split.
  - discriminate.
  - intros [? _]. lia.
  - auto.
  - tauto.
Qed.

Lemma at_index_in_range h i :
  0 <= i < Z.of_nat (length h) -> exists e, at_index h i = Some e.
Proof.
  intros Hi. destruct (lookup_lt_is_Some_2 h (Z.to_nat i)) as [e He]; [lia|].
  exists e. apply at_index_Some. split; [lia | done].
Qed.

Lemma at_index_range h i e :
  at_index h i = Some e -> 0 <= i < Z.of_nat (length h).
Proof.
  intros [Hi He]%at_index_Some. apply lookup_lt_Some in He. lia.
Qed.

Lemma at_index_elem h i e : at_index h i = Some e -> e ∈ h.
Proof. intros [_ He]%at_index_Some. by eapply list_elem_of_lookup_2. Qed.

Lemma elem_at_index h e : e ∈ h -> exists i, at_index h i = Some e.
Proof.
  intros [n Hn]%list_elem_of_lookup_1. exists (Z.of_nat n).
  apply at_index_Some. rewrite Nat2Z.id. split; [lia | done].
Qed.

(** The storage after exchanging the entries [x] of slot [a] and [y] of slot [b]. *)
Lemma at_index_exchanged h a b x y k :
  at_index h a = Some x -> at_index h b = Some y ->
  at_index (<[Z.to_nat b := x]> (<[Z.to_nat a := y]> h)) k =
    if k =? b then Some x else if k =? a then Some y else at_index h k.
Proof.
  intros Ha Hb.
  pose proof (at_index_range _ _ _ Ha) as Ra.
  pose proof (at_index_range _ _ _ Hb) as Rb.
  destruct (Z.eqb_spec k b) as [->|Hkb].
  - apply at_index_Some. split; [lia|].
    apply list_lookup_insert_eq. rewrite length_insert. lia.
  - destruct (Z.eqb_spec k a) as [->|Hka].
    + apply at_index_Some. split; [lia|].
      rewrite list_lookup_insert_ne by lia.
      apply list_lookup_insert_eq. lia.
    + unfold at_index. destruct (k <? 0) eqn:Hk; [done|].
      apply Z.ltb_ge in Hk.
      rewrite !list_lookup_insert_ne by lia. done.
Qed.

Lemma exchanged_length h a b x y :
  length (<[Z.to_nat b := x]> (<[Z.to_nat a := y]> h)) = length h.
Proof. by rewrite !length_insert. Qed.

Lemma exchanged_Permutation h a b x y :
  at_index h a = Some x -> at_index h b = Some y ->
  <[Z.to_nat b := x]> (<[Z.to_nat a := y]> h) ≡ₚ h.
Proof.
  intros Ha Hb. apply Permutation_inj. split; [apply exchanged_length|].
  set (na := Z.to_nat a). set (nb := Z.to_nat b).
  exists (fun k => if decide (k = nb) then na else if decide (k = na) then nb else k).
  split.
  - intros k1 k2. repeat case_decide; intros; subst; congruence.
  - intros k.
    apply at_index_Some in Ha as [? Ha]. apply at_index_Some in Hb as [? Hb].
    fold na in Ha. fold nb in Hb.
    pose proof (lookup_lt_Some _ _ _ Ha). pose proof (lookup_lt_Some _ _ _ Hb).
    repeat case_decide; subst.
    + rewrite list_lookup_insert_eq by (rewrite length_insert; lia). done.
    + rewrite list_lookup_insert_ne by done.
      rewrite list_lookup_insert_eq by lia. done.
    + by rewrite !list_lookup_insert_ne by done.
Qed.

Lemma swap_defined a b q x y :
  at_index (heap q) a = Some x -> at_index (heap q) b = Some y ->
  swap a b q = (Normal tt, setHeap q (<[Z.to_nat b := x]> (<[Z.to_nat a := y]> (heap q)))).
Proof. intros Ha Hb. unfold swap. by rewrite Ha, Hb. Qed.

(** ** What every run of the loops keeps *)

Lemma keeps_refl q : keeps q q.
Proof. by repeat split. Qed.

Lemma keeps_trans q1 q2 q3 : keeps q1 q2 -> keeps q2 q3 -> keeps q1 q3.
Proof.
  intros (Hc1 & Hs1 & Hp1) (Hc2 & Hs2 & Hp2). repeat split; try congruence.
  by rewrite Hp2.
Qed.

Lemma keeps_length q q' : keeps q q' -> length (heap q') = length (heap q).
Proof. intros (_ & _ & Hp). by apply Permutation_length. Qed.

Lemma keeps_exchanged q a b x y :
  at_index (heap q) a = Some x -> at_index (heap q) b = Some y ->
  keeps q (setHeap q (<[Z.to_nat b := x]> (<[Z.to_nat a := y]> (heap q)))).
Proof. intros Ha Hb. repeat split; simpl. by apply exchanged_Permutation. Qed.

Lemma raisedBy_keeps q q' e :
  keeps q q' -> raisedBy q' (heap q') e -> raisedBy q (heap q) e.
Proof.
  intros (Hc & _ & Hp) (a & b & Ha & Hb & Hab). exists a, b.
  rewrite Hp in Ha, Hb. rewrite Hc in Hab. done.
Qed.

(** Started inside the storage, [siftUp] only permutes it, and an
    exception is one the comparator threw on two stored entries. *)
Lemma siftUp_loop_any fuel : forall i q,
  0 <= i < Z.of_nat (length (heap q)) ->
  exists o q', siftUp_loop fuel i q = (o, q') /\ keeps q q' /\
    (forall e, o = Throw e -> raisedBy q (heap q) e).
Proof.
  induction fuel as [|fuel IH]; intros i q Hi; simpl.
  { exists (Normal tt), q. split; [done|]. split; [apply keeps_refl | discriminate]. }
  destruct (Z.ltb_spec 0 i) as [Hpos|Hle]; cycle 1.
  { exists (Normal tt), q. split; [done|]. split; [apply keeps_refl | discriminate]. }
  pose proof (getParent_range i Hpos) as Hp.
  destruct (at_index_in_range (heap q) i) as [a Ha]; [lia|].
  destruct (at_index_in_range (heap q) (getParent i)) as [b Hb]; [lia|].
  unfold bind, heapAt, compareEntries. rewrite Ha, Hb.
  destruct (order (comparator q) a b) as [z|e] eqn:Hord.
  - destruct (0 <=? z).
    + exists (Normal tt), q. split; [done|]. split; [apply keeps_refl | discriminate].
    + rewrite (swap_defined _ _ _ _ _ Ha Hb).
      pose proof (keeps_exchanged _ _ _ _ _ Ha Hb) as Hk.
      set (q1 := setHeap q _) in *.
      destruct (IH (getParent i) q1) as (o & q' & Hrun & Hk' & Hthrow).
      { rewrite (keeps_length _ _ Hk). lia. }
      exists o, q'. rewrite Hrun. split; [by destruct o|].
      split; [by eapply keeps_trans|].
      intros e He. eapply raisedBy_keeps; eauto.
  - exists (Throw e), q. split; [done|]. split; [apply keeps_refl|].
    intros e' [= <-]. exists a, b. eauto using at_index_elem.
Qed.

Lemma siftDown_loop_unfold fuel n i :
  siftDown_loop (T:=T) (S fuel) n i =
    (s1 <- pickSmaller n (getLeft i) i ;;
     s2 <- pickSmaller n (getRight i) s1 ;;
     if s2 =? i then ret tt else swap i s2 ;;; siftDown_loop fuel n s2).
Proof. reflexivity. Qed.

Lemma pickSmaller_outside n cand cur q :
  n <= cand -> pickSmaller n cand cur q = (Normal cur, q).
Proof. intros Hn. unfold pickSmaller. by destruct (Z.ltb_spec cand n); [lia|]. Qed.

Lemma pickSmaller_inside n cand cur q a b :
  cand < n -> at_index (heap q) cand = Some a -> at_index (heap q) cur = Some b ->
  pickSmaller n cand cur q =
    match order (comparator q) a b with
    | Normal z => (Normal (if z <? 0 then cand else cur), q)
    | Throw e => (Throw e, q)
    end.
Proof.
  intros Hn Ha Hb. unfold pickSmaller. destruct (Z.ltb_spec cand n); [|lia].
  unfold bind, heapAt, compareEntries. rewrite Ha, Hb.
  by destruct (order (comparator q) a b).
Qed.

Lemma pickSmaller_any n cand cur q :
  n = Z.of_nat (length (heap q)) -> 0 <= cand -> 0 <= cur < n ->
  (exists s, pickSmaller n cand cur q = (Normal s, q) /\
             (s = cur \/ s = cand /\ cand < n)) \/
  (exists e, pickSmaller n cand cur q = (Throw e, q) /\ raisedBy q (heap q) e).
Proof.
  intros Hn Hcand Hcur.
  destruct (Z.lt_ge_cases cand n) as [Hin|Hout]; cycle 1.
  { left. exists cur. rewrite pickSmaller_outside by lia. auto. }
  destruct (at_index_in_range (heap q) cand) as [a Ha]; [lia|].
  destruct (at_index_in_range (heap q) cur) as [b Hb]; [lia|].
  rewrite (pickSmaller_inside _ _ _ _ _ _ Hin Ha Hb).
  destruct (order (comparator q) a b) as [z|e] eqn:Hord.
  - left. eexists. split; [done|]. destruct (z <? 0); auto.
  - right. exists e. split; [done|]. exists a, b. eauto using at_index_elem.
Qed.

(** The same for [siftDown]. *)
Lemma siftDown_loop_any fuel : forall n i q,
  n = Z.of_nat (length (heap q)) -> 0 <= i < n ->
  exists o q', siftDown_loop fuel n i q = (o, q') /\ keeps q q' /\
    (forall e, o = Throw e -> raisedBy q (heap q) e).
Proof.
  induction fuel as [|fuel IH]; intros n i q Hn Hi.
  { exists (Normal tt), q. split; [done|]. split; [apply keeps_refl | discriminate]. }
  rewrite siftDown_loop_unfold. unfold bind.
  destruct (pickSmaller_any n (getLeft i) i q) as [(s1 & -> & Hs1)|(e & -> & He)];
    [done | unfold getLeft; lia | done | | ]; cycle 1.
  { exists (Throw e), q. split; [done|]. split; [apply keeps_refl|]. by intros ? [= <-]. }
  destruct (pickSmaller_any n (getRight i) s1 q) as [(s2 & -> & Hs2)|(e & -> & He)];
    [done | unfold getRight; lia | unfold getLeft in Hs1; lia | | ]; cycle 1.
  { exists (Throw e), q. split; [done|]. split; [apply keeps_refl|]. by intros ? [= <-]. }
  destruct (Z.eqb_spec s2 i) as [->|Hne].
  { exists (Normal tt), q. split; [done|]. split; [apply keeps_refl | discriminate]. }
  assert (i < s2 < n) as Hs2r by (unfold getLeft, getRight in *; lia).
  destruct (at_index_in_range (heap q) i) as [a Ha]; [lia|].
  destruct (at_index_in_range (heap q) s2) as [b Hb]; [lia|].
  rewrite (swap_defined _ _ _ _ _ Ha Hb).
  pose proof (keeps_exchanged _ _ _ _ _ Ha Hb) as Hk.
  set (q1 := setHeap q _) in *.
  destruct (IH n s2 q1) as (o & q' & Hrun & Hk' & Hthrow).
  { rewrite (keeps_length _ _ Hk). lia. }
  { lia. }
  exists o, q'. rewrite Hrun. split; [by destruct o|].
  split; [by eapply keeps_trans|].
  intros e He. eapply raisedBy_keeps; eauto.
Qed.

Lemma siftDown_any i q :
  0 <= i < Z.of_nat (length (heap q)) ->
  exists o q', siftDown i q = (o, q') /\ keeps q q' /\
    (forall e, o = Throw e -> raisedBy q (heap q) e).
Proof. intros Hi. unfold siftDown, bind, heapLength. by apply siftDown_loop_any. Qed.

Lemma heapify_loop_any fuel : forall i q,
  i < Z.of_nat (length (heap q)) ->
  exists o q', heapify_loop fuel i q = (o, q') /\ keeps q q' /\
    (forall e, o = Throw e -> raisedBy q (heap q) e).
Proof.
  induction fuel as [|fuel IH]; intros i q Hi; simpl.
  { exists (Normal tt), q. split; [done|]. split; [apply keeps_refl | discriminate]. }
  destruct (Z.leb_spec 0 i) as [Hpos|Hneg]; cycle 1.
  { exists (Normal tt), q. split; [done|]. split; [apply keeps_refl | discriminate]. }
  unfold bind.
  destruct (siftDown_any i q) as (o1 & q1 & -> & Hk1 & Hthrow1); [lia|].
  destruct o1 as [[]|e]; cycle 1.
  { exists (Throw e), q1. eauto. }
  destruct (IH (i - 1) q1) as (o & q' & Hrun & Hk' & Hthrow).
  { rewrite (keeps_length _ _ Hk1). lia. }
  exists o, q'. split; [done|]. split; [by eapply keeps_trans|].
  intros e He. eapply raisedBy_keeps; eauto.
Qed.

(** The re-heapify pass only permutes the storage, and throws only
    what the comparator threw. *)
Lemma heapify_any q :
  exists o q', heapify q = (o, q') /\ keeps q q' /\
    (forall e, o = Throw e -> raisedBy q (heap q) e).
Proof.
  unfold heapify, bind, heapLength. apply heapify_loop_any.
  Z.div_mod_to_equations. lia.
Qed.

(** [enqueue] in full, whatever the comparator does: the counter is
    advanced and the new entry stored before any comparison, and the
    only possible exception is the comparator's. *)
Lemma enqueue_any v q :
  exists o q', enqueue v q = (o, q') /\
    comparator q' = comparator q /\ seq q' = seq q + 1 /\
    heap q' ≡ₚ heap q ++ [mkEntry v (seq q)] /\
    (forall e, o = Throw e -> raisedBy q (heap q ++ [mkEntry v (seq q)]) e).
Proof.
  unfold enqueue, bind, nextSeq, push, heapLength, siftUp. simpl.
  set (q1 := setHeap (setSeq q (seq q + 1)) (heap q ++ [mkEntry v (seq q)])).
  destruct (siftUp_loop_any
              (Z.to_nat (Z.of_nat (length (heap q ++ [mkEntry v (seq q)])) - 1))
              (Z.of_nat (length (heap q ++ [mkEntry v (seq q)])) - 1) q1)
    as (o & q' & Hrun & (Hc & Hs & Hp) & Hthrow).
  { simpl. rewrite length_app. simpl. lia. }
  exists o, q'. split; [done|]. by repeat split.
Qed.

(** [dequeue] in full, whatever the comparator does. *)
Lemma dequeue_empty q : heap q = [] -> dequeue q = (Normal None, q).
Proof. intros Hq. unfold dequeue, bind, isEmpty. by rewrite Hq. Qed.

Lemma dequeue_any q top rest :
  heap q = top :: rest ->
  exists o q', dequeue q = (o, q') /\
    comparator q' = comparator q /\ seq q' = seq q /\
    top :: heap q' ≡ₚ heap q /\
    (o = Normal (Some (value top)) \/ exists e, o = Throw e /\ raisedBy q (heap q) e).
Proof.
  destruct rest as [|r rest _] using rev_ind; intros Hq;
    unfold dequeue, bind, isEmpty, heapAt, pop; simpl; rewrite !Hq; simpl; rewrite ?Hq.
  { simpl. eexists _, _. split; [done|]. repeat split; auto. }
  rewrite !app_comm_cons, last_snoc, removelast_last. simpl.
  set (q1 := setHeap (setHeap q (top :: rest)) (r :: rest)).
  assert (top :: heap q1 ≡ₚ top :: rest ++ [r]) as Hp1.
  { simpl. by rewrite <- Permutation_cons_append. }
  destruct (siftDown_any 0 q1) as (o & q' & Hrun & (Hc & Hs & Hp) & Hthrow).
  { simpl. lia. }
  change (setHeap _ (r :: rest)) with q1.
  rewrite Hrun. exists (match o with Normal _ => Normal (Some (value top)) | Throw e => Throw e end), q'.
  split; [by destruct o|]. split; [done|]. split; [done|].
  split; [by rewrite Hp|].
  destruct o as [[]|e]; [by left|]. right. exists e. split; [done|].
  destruct (Hthrow e eq_refl) as (a & b & Ha & Hb & Hab). exists a, b.
  assert (forall x, x ∈ heap q1 -> x ∈ top :: rest ++ [r]) as Hin.
  { intros x Hx. rewrite <- Hp1. by right. }
  auto.
Qed.

(** ** The order of entries under a comparator that keeps its contract *)

Lemma sgn_opposite (x y : Z) :
  Z.sgn y = - Z.sgn x -> (x < 0 <-> 0 < y) /\ (x = 0 <-> y = 0) /\ (0 < x <-> y < 0).
Proof. destruct x, y; simpl; intros Hs; try discriminate Hs; lia. Qed.

Lemma valuesIn_Permutation dom h h' : h' ≡ₚ h -> valuesIn dom h -> valuesIn dom h'.
Proof. intros Hp Hv e He. apply Hv. by rewrite <- Hp. Qed.

Lemma ordered_ordZ c a b : ordered c a b -> ordZ c a b <= 0.
Proof. intros (z & Hz & Hle). unfold ordZ. by rewrite Hz. Qed.

Lemma before_ordZ c a b : before c a b -> ordZ c a b < 0.
Proof. intros (z & Hz & Hle). unfold ordZ. by rewrite Hz. Qed.

Section Contract.
Variable dom : T -> Prop.
Variable c : Comparator T.
Hypothesis Hc : TotalPreorderOn dom c.

Lemma order_returns a b :
  dom (value a) -> dom (value b) -> order c a b = Normal (ordZ c a b).
Proof.
  intros Ha Hb. unfold ordZ, order.
  by destruct (tpo_returns _ _ Hc _ _ Ha Hb) as [z ->].
Qed.

Lemma ordZ_ordered a b :
  dom (value a) -> dom (value b) -> ordZ c a b <= 0 -> ordered c a b.
Proof. intros Ha Hb Hle. exists (ordZ c a b). by rewrite order_returns. Qed.

Lemma ordZ_before a b :
  dom (value a) -> dom (value b) -> ordZ c a b < 0 -> before c a b.
Proof. intros Ha Hb Hle. exists (ordZ c a b). by rewrite order_returns. Qed.

Lemma ordZ_sgn a b :
  dom (value a) -> dom (value b) ->
  (ordZ c a b < 0 <-> 0 < ordZ c b a) /\ (ordZ c a b = 0 <-> ordZ c b a = 0).
Proof.
  intros Ha Hb. unfold ordZ, order.
  destruct (tpo_returns _ _ Hc _ _ Ha Hb) as [x Hx].
  destruct (tpo_returns _ _ Hc _ _ Hb Ha) as [y Hy].
  pose proof (tpo_sgn _ _ Hc _ _ _ _ Ha Hb Hx Hy) as Hs%sgn_opposite.
  rewrite Hx, Hy.
  destruct (Z.eqb_spec x 0), (Z.eqb_spec y 0); lia.
Qed.

Lemma ordZ_zero_id a b :
  dom (value a) -> dom (value b) -> ordZ c a b = 0 -> id a = id b.
Proof.
  intros Ha Hb. unfold ordZ, order.
  destruct (tpo_returns _ _ Hc _ _ Ha Hb) as [x ->].
  destruct (Z.eqb_spec x 0); lia.
Qed.

Lemma ordZ_trans a b d :
  dom (value a) -> dom (value b) -> dom (value d) ->
  ordZ c a b <= 0 -> ordZ c b d <= 0 -> ordZ c a d <= 0.
Proof.
  intros Ha Hb Hd. unfold ordZ, order.
  destruct (tpo_returns _ _ Hc _ _ Ha Hb) as [ab Hab].
  destruct (tpo_returns _ _ Hc _ _ Hb Hd) as [bd Hbd].
  destruct (tpo_returns _ _ Hc _ _ Ha Hd) as [ad Had].
  destruct (tpo_returns _ _ Hc _ _ Hb Ha) as [ba Hba].
  destruct (tpo_returns _ _ Hc _ _ Hd Hb) as [db Hdb].
  destruct (tpo_returns _ _ Hc _ _ Hd Ha) as [da Hda].
  pose proof (tpo_sgn _ _ Hc _ _ _ _ Ha Hb Hab Hba) as S1%sgn_opposite.
  pose proof (tpo_sgn _ _ Hc _ _ _ _ Hb Hd Hbd Hdb) as S2%sgn_opposite.
  pose proof (tpo_sgn _ _ Hc _ _ _ _ Ha Hd Had Hda) as S3%sgn_opposite.
  pose proof (tpo_trans _ _ Hc _ _ _ _ _ _ Ha Hb Hd Hab Hbd Had) as T1.
  pose proof (tpo_trans _ _ Hc _ _ _ _ _ _ Hd Ha Hb Hda Hab Hdb) as T2.
  pose proof (tpo_trans _ _ Hc _ _ _ _ _ _ Hb Hd Ha Hbd Hda Hba) as T3.
  rewrite Hab, Hbd, Had.
  destruct (Z.eqb_spec ab 0), (Z.eqb_spec bd 0), (Z.eqb_spec ad 0); lia.
Qed.

Lemma ordZ_refl a : dom (value a) -> ordZ c a a <= 0.
Proof. intros Ha. pose proof (ordZ_sgn a a Ha Ha). lia. Qed.

Lemma ordZ_flip a b :
  dom (value a) -> dom (value b) -> 0 <= ordZ c a b -> ordZ c b a <= 0.
Proof. intros Ha Hb. pose proof (ordZ_sgn a b Ha Hb). lia. Qed.

End Contract.

(** ** The loops restore the heap property *)

Section Heap.
Variable dom : T -> Prop.

Ltac case_eqb :=
  repeat match goal with
         | Hx : context [?x =? ?y] |- _ => destruct (Z.eqb_spec x y)
         | |- context [?x =? ?y] => destruct (Z.eqb_spec x y)
         end.

Lemma heapFrom_heapOrdered c h :
  TotalPreorderOn dom c -> valuesIn dom h ->
  heapFrom c 0 h -> heapOrdered c h.
Proof.
  intros Hc Hv Hh i Hi.
  pose proof (getParent_range i ltac:(lia)) as Hp.
  destruct (at_index_in_range h (getParent i)) as [p Hpe]; [lia|].
  destruct (at_index_in_range h i) as [e He]; [lia|].
  exists p, e. split; [done|]. split; [done|].
  eapply ordZ_ordered; eauto using at_index_elem.
  eapply Hh; eauto; lia.
Qed.

Lemma heapOrdered_heapFrom c h : heapOrdered c h -> heapFrom c 0 h.
Proof.
  intros Hh k p e Hk _ Hp He.
  destruct (Hh k) as (p' & e' & Hp' & He' & Hord).
  { apply at_index_range in He. lia. }
  rewrite Hp in Hp'. rewrite He in He'. injection Hp' as <-. injection He' as <-.
  by apply ordered_ordZ.
Qed.

Lemma siftUp_loop_heap fuel : forall i q,
  TotalPreorderOn dom (comparator q) -> valuesIn dom (heap q) ->
  0 <= i < Z.of_nat (length (heap q)) -> i <= Z.of_nat fuel ->
  siftUpInv (comparator q) (heap q) i ->
  exists q', siftUp_loop fuel i q = (Normal tt, q') /\ keeps q q' /\
             heapFrom (comparator q) 0 (heap q').
Proof.
  induction fuel as [|fuel IH]; intros i q Hc Hv Hi Hfuel [Hedges Hgrand]; simpl.
  { exists q. split; [done|]. split; [apply keeps_refl|].
    intros k p e Hk _ Hp He. eapply Hedges; eauto. lia. }
  destruct (Z.ltb_spec 0 i) as [Hpos|Hle]; cycle 1.
  { exists q. split; [done|]. split; [apply keeps_refl|].
    intros k p e Hk _ Hp He. eapply Hedges; eauto. lia. }
  pose proof (getParent_range i Hpos) as Hpr.
  destruct (at_index_in_range (heap q) i) as [a Ha]; [lia|].
  destruct (at_index_in_range (heap q) (getParent i)) as [b Hb]; [lia|].
  assert (dom (value a)) as Da by eauto using at_index_elem.
  assert (dom (value b)) as Db by eauto using at_index_elem.
  unfold bind, heapAt, compareEntries. rewrite Ha, Hb.
  rewrite (order_returns dom _ Hc a b Da Db).
  destruct (Z.leb_spec 0 (ordZ (comparator q) a b)) as [Hge|Hlt].
  - exists q. split; [done|]. split; [apply keeps_refl|].
    intros k p e Hk _ Hp He. destruct (decide (k = i)) as [->|Hne].
    + rewrite Hb in Hp. rewrite Ha in He. injection Hp as <-. injection He as <-.
      by eapply ordZ_flip.
    + eapply Hedges; eauto.
  - rewrite (swap_defined _ _ _ _ _ Ha Hb).
    pose proof (keeps_exchanged _ _ _ _ _ Ha Hb) as Hk.
    set (q1 := setHeap q _) in *.
    assert (valuesIn dom (heap q1)) as Hv1.
    { eapply valuesIn_Permutation; [apply Hk | done]. }
    destruct (IH (getParent i) q1) as (q' & Hrun & Hk' & Hheap); try done.
    { rewrite (keeps_length _ _ Hk). lia. }
    { lia. }
    { assert (forall x e, at_index (heap q) x = Some e -> dom (value e)) as Dat
        by eauto using at_index_elem.
      split.
      - intros k p e Hk0 Hne Hp He. unfold q1, setHeap in Hp, He. cbn [heap] in Hp, He.
        rewrite (at_index_exchanged _ _ _ _ _ _ Ha Hb) in Hp.
        rewrite (at_index_exchanged _ _ _ _ _ _ Ha Hb) in He.
        change (comparator q1) with (comparator q).
        pose proof (getParent_range k Hk0) as Hkr.
        case_eqb; simplify_eq; try lia.
        + apply (ordZ_trans dom _ Hc p b e); eauto; [lia|].
          eapply (Hedges k); eauto. congruence.
        + eapply Hgrand; eauto.
        + eapply (Hedges k); eauto.
      - intros k g e Hp0 Hk0 Hkp Hg He. unfold q1, setHeap in Hg, He. cbn [heap] in Hg, He.
        rewrite (at_index_exchanged _ _ _ _ _ _ Ha Hb) in Hg.
        rewrite (at_index_exchanged _ _ _ _ _ _ Ha Hb) in He.
        change (comparator q1) with (comparator q).
        pose proof (getParent_range _ Hp0) as Hppr.
        case_eqb; simplify_eq; try lia.
        + eapply (Hedges (getParent i)); eauto.
        + assert (ordZ (comparator q) g b <= 0) as Hgb.
          { eapply (Hedges (getParent i)); eauto; lia. }
          apply (ordZ_trans dom _ Hc g b e); eauto.
          eapply (Hedges k); eauto. congruence. }
    exists q'. rewrite Hrun. split; [done|]. split; [by eapply keeps_trans|done].
Qed.

Lemma pickSmaller_heap n cand cur q b :
  TotalPreorderOn dom (comparator q) -> valuesIn dom (heap q) ->
  n = Z.of_nat (length (heap q)) -> 0 <= cand ->
  at_index (heap q) cur = Some b ->
  exists s m, pickSmaller n cand cur q = (Normal s, q) /\
    at_index (heap q) s = Some m /\
    ((s = cur /\ m = b /\
        forall e, at_index (heap q) cand = Some e -> ordZ (comparator q) b e <= 0) \/
     (s = cand /\ cand < n /\ ordZ (comparator q) m b < 0)).
Proof.
  intros Hc Hv Hn Hcand Hb.
  assert (forall x e, at_index (heap q) x = Some e -> dom (value e)) as Dat
    by eauto using at_index_elem.
  destruct (Z.lt_ge_cases cand n) as [Hin|Hout]; cycle 1.
  { exists cur, b. rewrite pickSmaller_outside by lia. split; [done|]. split; [done|].
    left. split; [done|]. split; [done|]. intros e He%at_index_range. lia. }
  destruct (at_index_in_range (heap q) cand) as [a Ha]; [lia|].
  rewrite (pickSmaller_inside _ _ _ _ _ _ Hin Ha Hb).
  rewrite (order_returns dom _ Hc a b) by eauto.
  destruct (Z.ltb_spec (ordZ (comparator q) a b) 0) as [Hlt|Hge].
  - exists cand, a. split; [done|]. split; [done|]. right. done.
  - exists cur, b. split; [done|]. split; [done|]. left. split; [done|]. split; [done|].
    intros e He. rewrite Ha in He. injection He as <-.
    eapply ordZ_flip; eauto.
Qed.

Lemma siftDown_loop_heap fuel : forall lo i q n,
  TotalPreorderOn dom (comparator q) -> valuesIn dom (heap q) ->
  n = Z.of_nat (length (heap q)) -> 0 <= i < n -> n - i <= Z.of_nat fuel ->
  siftDownInv (comparator q) lo (heap q) i ->
  exists q', siftDown_loop fuel n i q = (Normal tt, q') /\ keeps q q' /\
             heapFrom (comparator q) lo (heap q').
Proof.
  induction fuel as [|fuel IH]; intros lo i q n Hc Hv Hn Hi Hfuel [Hedges Hgrand]; [lia|].
  assert (forall x e, at_index (heap q) x = Some e -> dom (value e)) as Dat
    by eauto using at_index_elem.
  rewrite siftDown_loop_unfold. unfold bind.
  destruct (at_index_in_range (heap q) i) as [a Ha]; [lia|].
  destruct (pickSmaller_heap n (getLeft i) i q a) as (s1 & m1 & -> & Hm1 & Hs1);
    [done | done | done | unfold getLeft; lia | done |].
  destruct (pickSmaller_heap n (getRight i) s1 q m1) as (s2 & m2 & -> & Hm2 & Hs2);
    [done | done | done | unfold getRight; lia | done |].
  assert ((s2 = i /\ forall k e, 0 < k -> getParent k = i ->
                       at_index (heap q) k = Some e -> ordZ (comparator q) a e <= 0) \/
          (i < s2 < n /\ getParent s2 = i /\ ordZ (comparator q) m2 a <= 0 /\
           forall k e, 0 < k -> getParent k = i ->
                       at_index (heap q) k = Some e -> ordZ (comparator q) m2 e <= 0))
    as [[-> Hkids]|(Hs2r & Hs2p & Hm2a & Hkids)].
  { destruct Hs1 as [(-> & -> & Hl)|(-> & Hln & Hl)];
      destruct Hs2 as [(-> & -> & Hr)|(-> & Hrn & Hr)].
    - left. split; [done|]. intros k e Hk Hkp He.
      destruct (child_of_parent k) as [Ek|Ek]; rewrite Hkp in Ek; subst k; auto.
    - right. split; [unfold getRight in *; lia|]. split; [apply getParent_getRight|].
      split; [lia|]. intros k e Hk Hkp He.
      destruct (child_of_parent k) as [Ek|Ek]; rewrite Hkp in Ek; subst k.
      + apply (ordZ_trans dom _ Hc m2 a e); eauto. lia.
      + rewrite Hm2 in He. injection He as <-. eapply ordZ_refl; eauto.
    - right. split; [unfold getLeft in *; lia|]. split; [apply getParent_getLeft|].
      split; [lia|]. intros k e Hk Hkp He.
      destruct (child_of_parent k) as [Ek|Ek]; rewrite Hkp in Ek; subst k; auto.
      rewrite Hm2 in He. injection He as <-. eapply ordZ_refl; eauto.
    - right. split; [unfold getRight in *; lia|]. split; [apply getParent_getRight|].
      split; [apply (ordZ_trans dom _ Hc m2 m1 a); eauto; lia|].
      intros k e Hk Hkp He.
      destruct (child_of_parent k) as [Ek|Ek]; rewrite Hkp in Ek; subst k.
      + rewrite Hm1 in He. injection He as <-. lia.
      + rewrite Hm2 in He. injection He as <-. eapply ordZ_refl; eauto. }
  - rewrite Z.eqb_refl. exists q. split; [done|]. split; [apply keeps_refl|].
    intros k p e Hk Hlo Hp He.
    destruct (decide (getParent k = i)) as [Hkp|Hkp].
    + rewrite Hkp, Ha in Hp. injection Hp as <-. eauto.
    + eapply Hedges; eauto.
  - destruct (Z.eqb_spec s2 i) as [?|Hne]; [lia|].
    rewrite (swap_defined _ _ _ _ _ Ha Hm2).
    pose proof (keeps_exchanged _ _ _ _ _ Ha Hm2) as Hk.
    set (q1 := setHeap q _) in *.
    assert (valuesIn dom (heap q1)) as Hv1.
    { eapply valuesIn_Permutation; [apply Hk | done]. }
    destruct (IH lo s2 q1 n) as (q' & Hrun & Hk' & Hheap); try done.
    { by rewrite (keeps_length _ _ Hk). }
    { lia. }
    { lia. }
    { split.
      - intros k p e Hk0 Hlo Hne' Hp He. unfold q1, setHeap in Hp, He. cbn [heap] in Hp, He.
        rewrite (at_index_exchanged _ _ _ _ _ _ Ha Hm2) in Hp.
        rewrite (at_index_exchanged _ _ _ _ _ _ Ha Hm2) in He.
        change (comparator q1) with (comparator q).
        pose proof (getParent_range k Hk0) as Hkr.
        case_eqb; simplify_eq; try lia.
        + eapply (Hgrand s2); eauto; lia.
        + eapply Hkids; eauto; lia.
        + eapply (Hedges k); eauto; lia.
      - intros k g e Hs0 Hlo Hk0 Hkp Hg He. unfold q1, setHeap in Hg, He. cbn [heap] in Hg, He.
        rewrite (at_index_exchanged _ _ _ _ _ _ Ha Hm2) in Hg.
        rewrite (at_index_exchanged _ _ _ _ _ _ Ha Hm2) in He.
        change (comparator q1) with (comparator q).
        pose proof (getParent_range k Hk0) as Hkr.
        case_eqb; simplify_eq; try lia.
        eapply (Hedges k); eauto; lia. }
    exists q'. rewrite Hrun. split; [done|]. split; [by eapply keeps_trans|done].
Qed.

Lemma siftDown_heap lo i q :
  TotalPreorderOn dom (comparator q) -> valuesIn dom (heap q) ->
  0 <= i < Z.of_nat (length (heap q)) ->
  siftDownInv (comparator q) lo (heap q) i ->
  exists q', siftDown i q = (Normal tt, q') /\ keeps q q' /\
             heapFrom (comparator q) lo (heap q').
Proof.
  intros Hc Hv Hi Hinv. unfold siftDown, bind, heapLength.
  apply siftDown_loop_heap; auto. lia.
Qed.

Lemma heapFrom_weaken c lo lo' h : lo <= lo' -> heapFrom c lo h -> heapFrom c lo' h.
Proof. intros Hle Hh k p e Hk Hlo. apply Hh; [done | lia]. Qed.

Lemma heapFrom_nonpositive c lo h : lo <= 0 -> heapFrom c lo h <-> heapFrom c 0 h.
Proof.
  intros Hlo. split; [by apply heapFrom_weaken|].
  intros Hh k p e Hk _. apply Hh; [done|]. pose proof (getParent_range k Hk). lia.
Qed.

Lemma heapify_loop_heap fuel : forall i q,
  TotalPreorderOn dom (comparator q) -> valuesIn dom (heap q) ->
  i < Z.of_nat (length (heap q)) -> i + 1 <= Z.of_nat fuel ->
  heapFrom (comparator q) (i + 1) (heap q) ->
  exists q', heapify_loop fuel i q = (Normal tt, q') /\ keeps q q' /\
             heapFrom (comparator q) 0 (heap q').
Proof.
  induction fuel as [|fuel IH]; intros i q Hc Hv Hi Hfuel Hh; simpl.
  { exists q. split; [done|]. split; [apply keeps_refl|].
    apply (heapFrom_nonpositive _ (i + 1)); [lia | done]. }
  destruct (Z.leb_spec 0 i) as [Hpos|Hneg]; cycle 1.
  { exists q. split; [done|]. split; [apply keeps_refl|].
    apply (heapFrom_nonpositive _ (i + 1)); [lia | done]. }
  unfold bind.
  destruct (siftDown_heap i i q) as (q1 & -> & Hk1 & Hh1); [done | done | lia | |].
  { split.
    - intros k p e Hk Hlo Hne. apply Hh; [done | lia].
    - intros k g e Hi0 Hlo. pose proof (getParent_range i Hi0). lia. }
  destruct Hk1 as (Hc1 & Hs1 & Hp1).
  destruct (IH (i - 1) q1) as (q' & Hrun & Hk' & Hh'); rewrite ?Hc1; try done.
  { by eapply valuesIn_Permutation. }
  { rewrite (Permutation_length Hp1). lia. }
  { lia. }
  { by replace (i - 1 + 1) with i by lia. }
  rewrite Hc1 in Hh'. exists q'. split; [done|]. split; [|done].
  eapply keeps_trans; [|done]. by repeat split.
Qed.

(** The pass of [setComparator] and [toSortedArray] makes any storage a heap. *)
Lemma heapify_heap q :
  TotalPreorderOn dom (comparator q) -> valuesIn dom (heap q) ->
  exists q', heapify q = (Normal tt, q') /\ keeps q q' /\
             heapFrom (comparator q) 0 (heap q').
Proof.
  intros Hc Hv. unfold heapify, bind, heapLength.
  apply heapify_loop_heap; try done.
  - Z.div_mod_to_equations. lia.
  - Z.div_mod_to_equations. lia.
  - intros k p e Hk Hlo Hp He. apply at_index_range in He.
    unfold getParent in Hlo. Z.div_mod_to_equations. lia.
Qed.

Lemma at_index_app_l h e i x :
  at_index (h ++ [e]) i = Some x -> i < Z.of_nat (length h) -> at_index h i = Some x.
Proof.
  intros [Hi Hx]%at_index_Some Hlt. apply at_index_Some. split; [done|].
  by rewrite lookup_app_l in Hx by lia.
Qed.

Lemma enqueue_heap v q :
  TotalPreorderOn dom (comparator q) -> valuesIn dom (heap q) -> dom v ->
  heapFrom (comparator q) 0 (heap q) ->
  exists q', enqueue v q = (Normal tt, q') /\
    comparator q' = comparator q /\ seq q' = seq q + 1 /\
    heap q' ≡ₚ heap q ++ [mkEntry v (seq q)] /\
    heapFrom (comparator q) 0 (heap q').
Proof.
  intros Hc Hv Hd Hh.
  unfold enqueue, bind, nextSeq, push, heapLength, siftUp. simpl.
  set (e := mkEntry v (seq q)).
  set (q1 := setHeap (setSeq q (seq q + 1)) (heap q ++ [e])).
  destruct (siftUp_loop_heap (Z.to_nat (Z.of_nat (length (heap q ++ [e])) - 1))
              (Z.of_nat (length (heap q ++ [e])) - 1) q1)
    as (q' & Hrun & (Hc' & Hs' & Hp') & Hh'); try done.
  { intros x [Hx|Hx]%elem_of_app; [by apply Hv|].
    apply list_elem_of_singleton in Hx. by subst x. }
  { simpl. rewrite length_app. simpl. lia. }
  { lia. }
  { rewrite length_app. simpl. split.
    - intros k p x Hk Hne Hp Hx. simpl in *.
      pose proof (getParent_range k Hk).
      pose proof (at_index_range _ _ _ Hx) as Hr. rewrite length_app in Hr. simpl in Hr.
      eapply (Hh k); eauto; [lia | |]; eapply at_index_app_l; eauto; lia.
    - intros k g x _ Hk Hkp _ Hx. simpl in *.
      pose proof (getParent_range k Hk).
      pose proof (at_index_range _ _ _ Hx) as Hr. rewrite length_app in Hr. simpl in Hr.
      lia. }
  exists q'. by repeat split.
Qed.

Lemma dequeue_heap q top rest :
  TotalPreorderOn dom (comparator q) -> valuesIn dom (heap q) ->
  heapFrom (comparator q) 0 (heap q) ->
  heap q = top :: rest ->
  exists q', dequeue q = (Normal (Some (value top)), q') /\
    comparator q' = comparator q /\ seq q' = seq q /\
    top :: heap q' ≡ₚ heap q /\
    heapFrom (comparator q) 0 (heap q').
Proof.
  intros Hc Hv Hh. destruct rest as [|r rest _] using rev_ind; intros Hq;
    unfold dequeue, bind, isEmpty, heapAt, pop; simpl; rewrite !Hq; simpl; rewrite ?Hq.
  { simpl. eexists. split; [done|]. repeat split; auto.
    intros k p e Hk _ _ He. apply at_index_range in He. simpl in He. lia. }
  rewrite !app_comm_cons, last_snoc, removelast_last. simpl.
  set (q1 := setHeap (setHeap q (top :: rest)) (r :: rest)).
  assert (top :: heap q1 ≡ₚ top :: rest ++ [r]) as Hp1.
  { simpl. by rewrite <- Permutation_cons_append. }
  assert (forall j x, 0 < j -> at_index (heap q1) j = Some x -> at_index (heap q) j = Some x)
    as Hshift.
  { intros j x Hj [_ Hx]%at_index_Some. apply at_index_Some. split; [lia|].
    rewrite Hq. simpl in Hx. destruct (Z.to_nat j) as [|j'] eqn:Ej; [lia|].
    simpl in *. rewrite lookup_app_l; [done|]. by eapply lookup_lt_Some. }
  destruct (siftDown_heap 0 0 q1) as (q' & Hrun & (Hc' & Hs' & Hp') & Hh'); try done.
  { intros x Hx. apply Hv. rewrite Hq, <- Hp1. by right. }
  { split.
    - intros k p e Hk Hlo Hne Hp He. simpl.
      pose proof (getParent_range k Hk).
      eapply (Hh k); eauto; apply Hshift; auto; lia.
    - intros; lia. }
  change (setHeap _ (r :: rest)) with q1. rewrite Hrun.
  exists q'. split; [done|]. split; [done|]. split; [done|]. split; [|done].
  by rewrite Hp'.
Qed.

(** In a heap the root is ordered before or equal to every entry. *)
Lemma heap_root_least c h r :
  TotalPreorderOn dom c -> valuesIn dom h -> heapFrom c 0 h ->
  at_index h 0 = Some r -> forall e, e ∈ h -> ordZ c r e <= 0.
Proof.
  intros Hc Hv Hh Hr.
  assert (forall x e, at_index h x = Some e -> dom (value e)) as Dat
    by eauto using at_index_elem.
  assert (forall (n : nat) k e, 0 <= k < Z.of_nat n -> at_index h k = Some e ->
                                ordZ c r e <= 0) as Hall.
  { induction n as [|n IH]; intros k e Hk He; [lia|].
    destruct (decide (k = 0)) as [->|Hne].
    - rewrite Hr in He. injection He as <-. eapply ordZ_refl; eauto.
    - pose proof (getParent_range k ltac:(lia)) as Hp.
      pose proof (at_index_range _ _ _ He) as Hkr.
      destruct (at_index_in_range h (getParent k)) as [p Hpe]; [lia|].
      apply (ordZ_trans dom c Hc r p e); eauto.
      + apply (IH (getParent k)); [lia | done].
      + apply (Hh k); auto; lia. }
  intros e [i Hi]%elem_at_index.
  pose proof (at_index_range _ _ _ Hi).
  apply (Hall (length h) i); [lia | done].
Qed.

(** On a heap [siftDown] changes nothing, and neither does the
    re-heapify pass. *)
Lemma siftDown_loop_fixed fuel n i q :
  TotalPreorderOn dom (comparator q) -> valuesIn dom (heap q) ->
  n = Z.of_nat (length (heap q)) -> 0 <= i < n ->
  heapFrom (comparator q) 0 (heap q) ->
  siftDown_loop fuel n i q = (Normal tt, q).
Proof.
  intros Hc Hv Hn Hi Hh. destruct fuel as [|fuel]; [done|].
  assert (forall x e, at_index (heap q) x = Some e -> dom (value e)) as Dat
    by eauto using at_index_elem.
  rewrite siftDown_loop_unfold. unfold bind.
  destruct (at_index_in_range (heap q) i) as [a Ha]; [lia|].
  destruct (pickSmaller_heap n (getLeft i) i q a) as (s1 & m1 & -> & Hm1 & Hs1);
    [done | done | done | unfold getLeft; lia | done |].
  destruct Hs1 as [(-> & -> & _)|(-> & Hln & Hl)]; cycle 1.
  { exfalso. assert (ordZ (comparator q) a m1 <= 0) as Hle.
    { apply (Hh (getLeft i)); rewrite ?getParent_getLeft; auto; unfold getLeft; lia. }
    pose proof (ordZ_sgn dom _ Hc m1 a ltac:(eauto) ltac:(eauto)). lia. }
  destruct (pickSmaller_heap n (getRight i) i q a) as (s2 & m2 & -> & Hm2 & Hs2);
    [done | done | done | unfold getRight; lia | done |].
  destruct Hs2 as [(-> & -> & _)|(-> & Hrn & Hr)]; cycle 1.
  { exfalso. assert (ordZ (comparator q) a m2 <= 0) as Hle.
    { apply (Hh (getRight i)); rewrite ?getParent_getRight; auto; unfold getRight; lia. }
    pose proof (ordZ_sgn dom _ Hc m2 a ltac:(eauto) ltac:(eauto)). lia. }
  by rewrite Z.eqb_refl.
Qed.

Lemma siftDown_fixed i q :
  TotalPreorderOn dom (comparator q) -> valuesIn dom (heap q) ->
  0 <= i < Z.of_nat (length (heap q)) ->
  heapFrom (comparator q) 0 (heap q) ->
  siftDown i q = (Normal tt, q).
Proof.
  intros Hc Hv Hi Hh. unfold siftDown, bind, heapLength.
  by apply siftDown_loop_fixed.
Qed.

Lemma heapify_loop_fixed fuel : forall i q,
  TotalPreorderOn dom (comparator q) -> valuesIn dom (heap q) ->
  i < Z.of_nat (length (heap q)) ->
  heapFrom (comparator q) 0 (heap q) ->
  heapify_loop fuel i q = (Normal tt, q).
Proof.
  induction fuel as [|fuel IH]; intros i q Hc Hv Hi Hh; simpl; [done|].
  destruct (Z.leb_spec 0 i); [|done].
  unfold bind. rewrite siftDown_fixed by (auto; lia). apply IH; auto. lia.
Qed.

Lemma heapify_fixed q :
  TotalPreorderOn dom (comparator q) -> valuesIn dom (heap q) ->
  heapFrom (comparator q) 0 (heap q) ->
  heapify q = (Normal tt, q).
Proof.
  intros Hc Hv Hh. unfold heapify, bind, heapLength.
  apply heapify_loop_fixed; auto. Z.div_mod_to_equations. lia.
Qed.

(** Dequeuing a heap until it is empty returns its entries in order. *)
Lemma dequeueAll_loop_sorted fuel : forall q out,
  TotalPreorderOn dom (comparator q) -> valuesIn dom (heap q) ->
  heapFrom (comparator q) 0 (heap q) ->
  (length (heap q) <= fuel)%nat ->
  exists D q', dequeueAll_loop fuel out q = (Normal (out ++ map value D), q') /\
    heap q' = [] /\ comparator q' = comparator q /\ seq q' = seq q /\
    D ≡ₚ heap q /\
    StronglySorted (fun a b => ordZ (comparator q) a b <= 0) D.
Proof.
  induction fuel as [|fuel IH]; intros q out Hc Hv Hh Hfuel.
  { assert (heap q = []) as Hq by (apply nil_length_inv; lia).
    exists [], q. simpl. rewrite app_nil_r, Hq. repeat split; auto. constructor. }
  cbn [dequeueAll_loop]. unfold bind, isEmpty. cbn beta iota.
  assert (exists l, heap q = l) as [[|top rest] Hq] by eauto;
    destruct (Z.eqb_spec (Z.of_nat (length (heap q))) 0) as [Hz|Hz];
    rewrite Hq in Hz; simpl in Hz; try lia.
  { exists [], q. simpl. rewrite app_nil_r, Hq. repeat split; auto. constructor. }
  destruct (dequeue_heap q top rest Hc Hv Hh Hq) as (q1 & -> & Hc1 & Hs1 & Hp1 & Hh1).
  assert (valuesIn dom (heap q1)) as Hv1.
  { intros x Hx. apply Hv. rewrite <- Hp1. by right. }
  destruct (IH q1 (out ++ [value top])) as (D & q' & Hrun & He & Hc' & Hs' & HpD & Hsort);
    rewrite ?Hc1; auto.
  { apply Permutation_length in Hp1. simpl in Hp1. lia. }
  exists (top :: D), q'. rewrite Hrun. simpl. rewrite <- app_assoc. simpl.
  split; [done|]. split; [done|]. split; [congruence|]. split; [congruence|].
  rewrite Hc1 in Hsort.
  split; [by rewrite HpD|].
  constructor; [done|]. apply Forall_forall. intros e He'.
  apply (heap_root_least (comparator q) (heap q) top); auto.
  - by rewrite Hq.
  - rewrite <- Hp1. right. by rewrite <- HpD.
Qed.

End Heap.

(** ** Bulk enqueue, ids and the counter *)

Lemma never_raised q h e : neverThrows (comparator q) -> ~ raisedBy q h e.
Proof.
  intros Hn (a & b & _ & _ & Hab). unfold order in Hab.
  destruct (Hn (value a) (value b)) as [z Hz]. by rewrite Hz in Hab.
Qed.

Lemma enqueueAll_any vs : forall q,
  exists o q', enqueueAll vs q = (o, q') /\ comparator q' = comparator q /\
    (o = Normal tt ->
       seq q' = seq q + Z.of_nat (length vs) /\
       heap q' ≡ₚ heap q ++ entriesFrom (seq q) vs) /\
    (forall e, o = Throw e ->
       exists h, raisedBy q h e /\ forall x, x ∈ h -> x ∈ heap q \/ value x ∈ vs).
Proof.
  induction vs as [|v vs IH]; intros q; simpl.
  { exists (Normal tt), q. split; [done|]. split; [done|]. split; [|discriminate].
    intros _. rewrite app_nil_r. split; [lia | done]. }
  unfold bind.
  destruct (enqueue_any v q) as (o1 & q1 & -> & Hc1 & Hs1 & Hp1 & Ht1).
  destruct o1 as [[]|e1]; cycle 1.
  { exists (Throw e1), q1. split; [done|]. split; [done|]. split; [discriminate|].
    intros e [= <-]. eexists. split; [by apply Ht1|].
    intros x [Hx|Hx]%elem_of_app; [by left|]. right.
    apply list_elem_of_singleton in Hx. subst x. simpl. by left. }
  destruct (IH q1) as (o & q' & -> & Hc' & Hn' & Ht').
  exists o, q'. split; [done|]. split; [congruence|]. split.
  - intros Ho. destruct (Hn' Ho) as [Hs' Hp']. split; [lia|].
    rewrite Hp', Hp1, Hs1, <- app_assoc. done.
  - intros e He. destruct (Ht' e He) as (h & (a & b & Ha & Hb & Hab) & Hsub).
    exists h. split.
    + exists a, b. rewrite Hc1 in Hab. done.
    + intros x Hx. destruct (Hsub x Hx) as [Hx'|Hx']; [|right; by right].
      rewrite Hp1 in Hx'. apply elem_of_app in Hx' as [Hx'|Hx']; [by left|].
      apply list_elem_of_singleton in Hx'. subst x. right. by left.
Qed.

Lemma idsFresh_enqueue v q o q' :
  enqueue v q = (o, q') -> idsFresh q -> idsFresh q'.
Proof.
  intros Hrun [Hnd Hlt].
  destruct (enqueue_any v q) as (o1 & q1 & Hrun1 & Hc1 & Hs1 & Hp1 & _).
  rewrite Hrun in Hrun1. injection Hrun1 as <- <-.
  split.
  - rewrite Hp1, map_app. simpl. apply NoDup_app. split; [done|]. split.
    + intros x Hx Hx'. apply list_elem_of_singleton in Hx'. subst x.
      apply list_elem_of_fmap in Hx as (e & He & Hin).
      rewrite Forall_forall in Hlt. specialize (Hlt e Hin). lia.
    + apply NoDup_singleton.
  - rewrite Hp1, Hs1. apply Forall_app. split.
    + eapply Forall_impl; [done|]. simpl. intros; lia.
    + constructor; [simpl; lia | constructor].
Qed.

Lemma idsFresh_sub q q' x :
  x :: heap q' ≡ₚ heap q -> seq q' = seq q -> idsFresh q -> idsFresh q'.
Proof.
  intros Hp Hs [Hnd Hlt]. rewrite <- Hp in Hnd, Hlt. simpl in Hnd.
  apply NoDup_cons in Hnd as [_ Hnd]. apply Forall_cons in Hlt as [_ Hlt].
  split; [done|]. by rewrite Hs.
Qed.

Lemma idsFresh_keeps q q' : keeps q q' -> idsFresh q -> idsFresh q'.
Proof.
  intros (_ & Hs & Hp) [Hnd Hlt]. split; rewrite Hp; [done|]. by rewrite Hs.
Qed.

Lemma idsFresh_enqueueAll vs : forall q o q',
  enqueueAll vs q = (o, q') -> idsFresh q -> idsFresh q'.
Proof.
  induction vs as [|v vs IH]; intros q o q'; simpl.
  { by intros [= <- <-]. }
  unfold bind. destruct (enqueue v q) as [[[]|e] q1] eqn:Hrun; intros Hrun' Hf.
  - eapply IH; [done|]. by eapply idsFresh_enqueue.
  - injection Hrun' as <- <-. by eapply idsFresh_enqueue.
Qed.

Lemma dequeue_cases q :
  (heap q = [] /\ dequeue q = (Normal None, q)) \/
  exists top o q', dequeue q = (o, q') /\
    comparator q' = comparator q /\ seq q' = seq q /\
    top :: heap q' ≡ₚ heap q /\
    (o = Normal (Some (value top)) \/ exists e, o = Throw e /\ raisedBy q (heap q) e).
Proof.
  destruct (heap q) as [|top rest] eqn:Hq.
  - left. split; [done|]. by apply dequeue_empty.
  - right. destruct (dequeue_any q top rest Hq) as (o & q' & H1 & H2 & H3 & H4 & H5).
    exists top, o, q'. rewrite Hq in H4, H5. done.
Qed.

Lemma setComparator_any c q :
  exists o q', setComparator c q = (o, q') /\ comparator q' = c /\
    seq q' = seq q /\ heap q' ≡ₚ heap q /\
    (forall e, o = Throw e -> raisedBy (setComparatorField q c) (heap q) e).
Proof.
  unfold setComparator.
  destruct (heapify_any (setComparatorField q c)) as (o & q' & -> & (Hc & Hs & Hp) & Ht).
  by exists o, q'.
Qed.

Lemma idsFresh_after k q : idsFresh q -> idsFresh (after k q).
Proof.
  intros Hf. destruct k; simpl; try done.
  - destruct (enqueue v q) as [o q'] eqn:Hrun. by eapply idsFresh_enqueue.
  - destruct (dequeue_cases q) as [[_ ->]|(top & o & q' & -> & _ & Hs & Hp & _)]; [done|].
    by eapply idsFresh_sub.
  - split; simpl; constructor.
  - destruct (setComparator_any c q) as (o & q' & -> & _ & Hs & Hp & _). simpl.
    destruct Hf as [Hnd Hlt]. split; rewrite Hp; [done|]. by rewrite Hs.
Qed.

Lemma copy_is_same q :
  setSeq (setHeap (emptyQueue (Some (comparator q)))
            (heap (emptyQueue (Some (comparator q))) ++
             map (fun e => {| value := value e; id := id e |}) (heap q)))
         (seq q) = q.
Proof.
  destruct q as [h c s]. unfold setSeq, setHeap, emptyQueue. simpl. f_equal.
  induction h as [|[v i] h IH]; simpl; [done|]. by rewrite IH.
Qed.

(** ** The fuel of the loops is enough *)

Lemma siftUp_loop_fuel f1 : forall f2 i q,
  i <= Z.of_nat f1 -> i <= Z.of_nat f2 ->
  siftUp_loop f1 i q = siftUp_loop f2 i q.
Proof.
  induction f1 as [|f1 IH]; intros [|f2] i q H1 H2; simpl; try done.
  - by destruct (Z.ltb_spec 0 i); [lia|].
  - by destruct (Z.ltb_spec 0 i); [lia|].
  - destruct (Z.ltb_spec 0 i) as [Hpos|]; [|done].
    pose proof (getParent_range i Hpos).
    unfold bind. destruct (heapAt i q) as [[a|e] q1]; [|done].
    destruct (heapAt (getParent i) q1) as [[b|e] q2]; [|done].
    destruct (compareEntries a b q2) as [[z|e] q3]; [|done].
    destruct (0 <=? z); [done|].
    destruct (swap i (getParent i) q3) as [[[]|e] q4]; [|done].
    apply IH; lia.
Qed.

Lemma pickSmaller_result n cand cur q o q' :
  pickSmaller n cand cur q = (o, q') ->
  q' = q /\ forall s, o = Normal s -> s = cur \/ s = cand.
Proof.
  unfold pickSmaller, bind, heapAt, compareEntries, ret.
  destruct (cand <? n).
  - destruct (at_index (heap q) cand) as [a|], (at_index (heap q) cur) as [b|];
      try (intros [= <- <-]; by split).
    destruct (order (comparator q) a b) as [z|e]; intros [= <- <-]; split; try done.
    intros s [= <-]. destruct (z <? 0); auto.
  - intros [= <- <-]. split; [done|]. intros s [= <-]. auto.
Qed.

Lemma siftDown_loop_fuel f1 : forall f2 n i q,
  0 <= i -> n - i <= Z.of_nat f1 -> n - i <= Z.of_nat f2 ->
  siftDown_loop f1 n i q = siftDown_loop f2 n i q.
Proof.
  assert (forall f n i q, 0 <= i -> n <= i -> siftDown_loop f n i q = (Normal tt, q)) as Hout.
  { intros [|f] n i q Hi Hn; [done|]. rewrite siftDown_loop_unfold. unfold bind.
    rewrite !pickSmaller_outside by (unfold getLeft, getRight; lia).
    by rewrite Z.eqb_refl. }
  induction f1 as [|f1 IH]; intros [|f2] n i q Hi H1 H2; try done.
  - by rewrite !Hout by lia.
  - by rewrite !Hout by lia.
  - rewrite !siftDown_loop_unfold. unfold bind.
    destruct (pickSmaller n (getLeft i) i q) as [[s1|e] q1] eqn:E1; [|done].
    apply pickSmaller_result in E1 as [-> Hs1]. specialize (Hs1 s1 eq_refl).
    destruct (pickSmaller n (getRight i) s1 q) as [[s2|e] q2] eqn:E2; [|done].
    apply pickSmaller_result in E2 as [-> Hs2]. specialize (Hs2 s2 eq_refl).
    destruct (Z.eqb_spec s2 i); [done|].
    destruct (swap i s2 q) as [[[]|e] q3]; [|done].
    apply IH; unfold getLeft, getRight in *; lia.
Qed.

Lemma heapify_loop_fuel f1 : forall f2 i q,
  i + 1 <= Z.of_nat f1 -> i + 1 <= Z.of_nat f2 ->
  heapify_loop f1 i q = heapify_loop f2 i q.
Proof.
  induction f1 as [|f1 IH]; intros [|f2] i q H1 H2; simpl; try done.
  - by destruct (Z.leb_spec 0 i); [lia|].
  - by destruct (Z.leb_spec 0 i); [lia|].
  - destruct (Z.leb_spec 0 i); [|done]. unfold bind.
    destruct (siftDown i q) as [[[]|e] q1]; [|done]. apply IH; lia.
Qed.

Lemma dequeueAll_loop_fuel f1 : forall f2 out q,
  (length (heap q) <= f1)%nat -> (length (heap q) <= f2)%nat ->
  dequeueAll_loop f1 out q = dequeueAll_loop f2 out q.
Proof.
  assert (forall f out q, heap q = [] -> dequeueAll_loop f out q = (Normal out, q)) as Hout.
  { intros [|f] out q Hq; [done|]. simpl. unfold bind, isEmpty. by rewrite Hq. }
  induction f1 as [|f1 IH]; intros [|f2] out q H1 H2; try done.
  - rewrite !Hout; [done | apply nil_length_inv; lia ..].
  - rewrite !Hout; [done | apply nil_length_inv; lia ..].
  - simpl. unfold bind, isEmpty. destruct (Z.of_nat (length (heap q)) =? 0); [done|].
    destruct (dequeue_cases q) as [[_ ->]|(top & o & q' & -> & _ & _ & Hp & _)]; [done|].
    destruct o as [[x|]|e]; try done.
    apply Permutation_length in Hp. simpl in Hp. apply IH; lia.
Qed.

(** Dequeuing until empty throws only what the comparator threw. *)
Lemma dequeueAll_loop_any fuel : forall out q,
  exists o q', dequeueAll_loop fuel out q = (o, q') /\
    forall e, o = Throw e -> raisedBy q (heap q) e.
Proof.
  induction fuel as [|fuel IH]; intros out q; simpl.
  { eexists _, _. split; [done|]. discriminate. }
  unfold bind, isEmpty. destruct (Z.eqb_spec (Z.of_nat (length (heap q))) 0) as [Hz|Hz].
  { eexists _, _. split; [done|]. discriminate. }
  destruct (dequeue_cases q) as [[Hq _]|(top & o & q1 & -> & Hc & _ & Hp & Ho)].
  { rewrite Hq in Hz. done. }
  destruct Ho as [->|(e & -> & He)]; cycle 1.
  { eexists _, _. split; [done|]. by intros ? [= <-]. }
  destruct (IH (out ++ [value top]) q1) as (o & q' & -> & Ht).
  exists o, q'. split; [done|]. intros e He.
  destruct (Ht e He) as (a & b & Ha & Hb & Hab). exists a, b.
  rewrite Hc in Hab. rewrite <- Hp. split; [by right|]. split; [by right | done].
Qed.

Lemma toSortedArray_any q :
  exists o, toSortedArray q = (o, q) /\ forall e, o = Throw e -> raisedBy q (heap q) e.
Proof.
  unfold toSortedArray. rewrite copy_is_same. unfold bind.
  destruct (heapify_any q) as (o1 & q1 & -> & (Hc & Hs & Hp) & Ht).
  destruct o1 as [[]|e1]; simpl; cycle 1.
  { exists (Throw e1). split; [done|]. intros e [= <-]. by apply Ht. }
  destruct (dequeueAll_loop_any (length (heap q1)) [] q1) as (o & q' & Hrun & Ht').
  unfold dequeueAll. rewrite Hrun. exists o. split; [done|].
  intros e He. destruct (Ht' e He) as (a & b & Ha & Hb & Hab). exists a, b.
  rewrite Hp in Ha, Hb. rewrite Hc in Hab. done.
Qed.

(** ** Claims *)

(** C6. On an empty queue [dequeue()] and [peek()] both return the
    absent signal ([null], here [None]), neither throws, and neither
    changes the instance: its size and stored contents are as before. *)
Theorem empty_queue_reads_absent q :
  heap q = [] ->
  dequeue q = (Normal None, q) /\ peek q = (Normal None, q) /\
  fst (size q) = Normal 0.
Proof.
  intros Hq. split; [by apply dequeue_empty|].
  unfold peek, size, bind, heapAt, heapLength, ret. by rewrite Hq.
Qed.

(** C8. The sequence counter is 0 in a new instance (and equals the
    number of initial values once the constructor has enqueued them),
    grows by exactly 1 with every [enqueue], is reset to 0 by [clear],
    and is left alone by [dequeue], [peek], [size], [isEmpty],
    [toArray], [toSortedArray] and [setComparator]. *)
Theorem seq_counter_frame :
  (forall oc, seq (emptyQueue oc) = 0) /\
  (forall oc initial, match new oc initial with
                     | Normal q => seq q = Z.of_nat (length (default [] initial))
                     | Throw _ => True
                     end) /\
  (forall v q, seq (snd (enqueue v q)) = seq q + 1) /\
  (forall q, seq (snd (clear q)) = 0) /\
  (forall q, seq (snd (dequeue q)) = seq q) /\
  (forall q, seq (snd (peek q)) = seq q) /\
  (forall q, seq (snd (size q)) = seq q) /\
  (forall q, seq (snd (isEmpty q)) = seq q) /\
  (forall q, seq (snd (toArray q)) = seq q) /\
  (forall q, seq (snd (toSortedArray q)) = seq q) /\
  (forall c q, seq (snd (setComparator c q)) = seq q).
Proof.
  repeat split; try done.
  - intros oc [vs|]; simpl; [|done].
    destruct (enqueueAll_any vs (emptyQueue oc)) as (o & q' & -> & _ & Hn & _).
    destruct o as [[]|e]; [|done]. destruct (Hn eq_refl) as [-> _]. simpl. lia.
  - intros v q. by destruct (enqueue_any v q) as (o & q' & -> & _ & Hs & _).
  - intros q.
    by destruct (dequeue_cases q) as [[_ ->]|(top & o & q' & -> & _ & Hs & _)].
  - intros c q. by destruct (setComparator_any c q) as (o & q' & -> & _ & Hs & _).
Qed.

(** C9. [enqueue] is not atomic when a comparison fails: if
    [enqueue(value)] throws, the exception is one the comparator threw
    during the sift-up, the new entry is already stored and the counter
    already advanced, so the size is one more than before. *)
Theorem enqueue_not_atomic v q e q' :
  enqueue v q = (Throw e, q') ->
  fst (size q') = Normal (Z.of_nat (length (heap q)) + 1) /\
  seq q' = seq q + 1 /\
  mkEntry v (seq q) ∈ heap q' /\
  heap q' ≡ₚ heap q ++ [mkEntry v (seq q)] /\
  raisedBy q (heap q ++ [mkEntry v (seq q)]) e.
Proof.
  intros Hrun.
  destruct (enqueue_any v q) as (o & q1 & Hrun1 & Hc & Hs & Hp & Ht).
  rewrite Hrun in Hrun1. injection Hrun1 as <- <-.
  split.
  { unfold size, heapLength. simpl. rewrite (Permutation_length Hp), length_app.
    simpl. f_equal. lia. }
  split; [done|]. split; [|by auto].
  rewrite Hp. apply elem_of_app. right. by left.
Qed.

Lemma entriesFrom_length vs : forall s, length (entriesFrom s vs) = length vs.
Proof. induction vs as [|v vs IH]; intros s; simpl; [done|]. by rewrite IH. Qed.

Lemma entriesFrom_values vs : forall s, map value (entriesFrom s vs) = vs.
Proof. induction vs as [|v vs IH]; intros s; simpl; [done|]. by rewrite IH. Qed.

Lemma entriesFrom_ids vs : forall s e, e ∈ entriesFrom s vs -> s <= id e.
Proof.
  induction vs as [|v vs IH]; intros s e; simpl; [by intros ?%elem_of_nil|].
  intros [->|He]%elem_of_cons; simpl; [lia|]. apply IH in He. lia.
Qed.

Lemma entriesFrom_elem vs : forall s e, e ∈ entriesFrom s vs -> value e ∈ vs.
Proof.
  induction vs as [|v vs IH]; intros s e; simpl; [by intros ?%elem_of_nil|].
  intros [->|He]%elem_of_cons; simpl; [by left|]. right. by eapply IH.
Qed.

Lemma dequeueN_length n : forall q,
  neverThrows (comparator q) -> (n <= length (heap q))%nat ->
  exists outs q', dequeueN n q = (Normal outs, q') /\
    comparator q' = comparator q /\
    length (heap q') = (length (heap q) - n)%nat.
Proof.
  induction n as [|n IH]; intros q Hn Hlen; simpl.
  { exists [], q. split; [done|]. split; [done|]. lia. }
  unfold bind.
  destruct (dequeue_cases q) as [[Hq _]|(top & o & q1 & -> & Hc1 & _ & Hp1 & Ho)].
  { rewrite Hq in Hlen. simpl in Hlen. lia. }
  destruct Ho as [->|(e & _ & He)]; [|by apply never_raised in He].
  apply Permutation_length in Hp1. simpl in Hp1.
  destruct (IH q1) as (outs & q' & -> & Hc' & Hl'); [by rewrite Hc1 | lia |].
  eexists _, q'. split; [done|]. split; [congruence | lia].
Qed.

(** C7. With a comparator that never fails, [n] enqueues into an empty
    queue followed by [k <= n] dequeues all return, and [size()] is
    then [n - k]. *)
Theorem size_after_enqueues_dequeues q0 vs k :
  neverThrows (comparator q0) -> heap q0 = [] -> (k <= length vs)%nat ->
  exists q1 outs q2,
    enqueueAll vs q0 = (Normal tt, q1) /\
    dequeueN k q1 = (Normal outs, q2) /\
    fst (size q2) = Normal (Z.of_nat (length vs) - Z.of_nat k).
Proof.
  intros Hn Hq Hk.
  destruct (enqueueAll_any vs q0) as (o & q1 & Hrun & Hc1 & Hnorm & Ht).
  destruct o as [[]|e]; cycle 1.
  { destruct (Ht e eq_refl) as (h & He & _). by apply never_raised in He. }
  destruct (Hnorm eq_refl) as [_ Hp1]. apply Permutation_length in Hp1.
  rewrite Hq in Hp1. simpl in Hp1.
  pose proof (entriesFrom_length vs (seq q0)) as Hlen.
  destruct (dequeueN_length k q1) as (outs & q2 & Hrun2 & _ & Hl2);
    [by rewrite Hc1 | lia |].
  exists q1, outs, q2. split; [done|]. split; [done|].
  unfold size, heapLength. simpl. f_equal. lia.
Qed.

Lemma enqueueAll_heap dom vs : forall q,
  wellFormed dom q -> Forall dom vs ->
  exists q', enqueueAll vs q = (Normal tt, q') /\ wellFormed dom q' /\
    comparator q' = comparator q /\
    seq q' = seq q + Z.of_nat (length vs) /\
    heap q' ≡ₚ heap q ++ entriesFrom (seq q) vs.
Proof.
  induction vs as [|v vs IH]; intros q Hwf Hvs; simpl.
  { exists q. rewrite app_nil_r. repeat split; try done; try apply Hwf. lia. }
  destruct Hwf as (Hc & Hv & Hh). apply Forall_cons in Hvs as [Hd Hvs].
  unfold bind.
  destruct (enqueue_heap dom v q Hc Hv Hd Hh) as (q1 & -> & Hc1 & Hs1 & Hp1 & Hh1).
  destruct (IH q1) as (q' & -> & Hwf' & Hc' & Hs' & Hp'); [|done|].
  { unfold wellFormed. rewrite Hc1. split; [done|]. split; [|done].
    intros x Hx. rewrite Hp1 in Hx. apply elem_of_app in Hx as [Hx|Hx]; [by apply Hv|].
    apply list_elem_of_singleton in Hx. by subst x. }
  exists q'. split; [done|]. split; [done|]. split; [congruence|]. split; [lia|].
  by rewrite Hp', Hp1, Hs1, <- app_assoc.
Qed.

Lemma wellFormed_after dom k q :
  wellFormed dom q -> callWith (TotalPreorderOn dom) dom k ->
  wellFormed dom (after k q).
Proof.
  unfold wellFormed. intros (Hc & Hv & Hh) Hk. destruct k; simpl in *; try done.
  - destruct (enqueue_heap dom v q Hc Hv Hk Hh) as (q' & -> & Hc' & _ & Hp' & Hh').
    simpl. rewrite Hc'. split; [done|]. split; [|done].
    intros x Hx. rewrite Hp' in Hx. apply elem_of_app in Hx as [Hx|Hx]; [by apply Hv|].
    apply list_elem_of_singleton in Hx. by subst x.
  - destruct (heap q) as [|top rest] eqn:Hq.
    { rewrite dequeue_empty by done. simpl. rewrite Hq. done. }
    rewrite <- Hq in Hh, Hv.
    destruct (dequeue_heap dom q top rest Hc Hv Hh Hq) as (q' & -> & Hc' & _ & Hp' & Hh').
    simpl. rewrite Hc'. split; [done|]. split; [|done].
    intros x Hx. apply Hv. rewrite <- Hp'. by right.
  - split; [done|]. split.
    + intros x Hx. by apply elem_of_nil in Hx.
    + intros i p e _ _ _ He. apply at_index_range in He. simpl in He. lia.
  - unfold setComparator.
    destruct (heapify_heap dom (setComparatorField q c)) as (q' & -> & (Hc' & _ & Hp') & Hh');
      try done.
    simpl in *. rewrite Hc'. split; [done|]. split; [|done].
    by eapply valuesIn_Permutation.
Qed.

Lemma wellFormed_new dom oc initial q :
  TotalPreorderOn dom (default defaultComparator oc) ->
  (forall vs, initial = Some vs -> Forall dom vs) ->
  new oc initial = Normal q -> wellFormed dom q.
Proof.
  intros Hc Hvs. assert (wellFormed dom (emptyQueue oc)) as Hwf.
  { split; [done|]. split.
    - intros x Hx. by apply elem_of_nil in Hx.
    - intros i p e _ _ _ He. apply at_index_range in He. simpl in He. lia. }
  destruct initial as [vs|]; simpl; [|by intros [= <-]].
  destruct (enqueueAll_heap dom vs (emptyQueue oc)) as (q' & -> & Hwf' & _); auto.
  by intros [= <-].
Qed.

(** C1. In every instance reachable through the constructor and any
    sequence of public calls -- the comparators keeping the comparator
    contract on the values that are enqueued -- the heap property
    holds: [order(heap[parent(i)], heap[i]) <= 0] at every non-root
    index [i], [order] being the comparator's result, or the
    difference of the insertion ids when that is zero. *)
Theorem heap_property_reachable dom q :
  reachable (TotalPreorderOn dom) dom q -> heapProperty q.
Proof.
  intros Hr. assert (wellFormed dom q) as (Hc & Hv & Hh).
  { induction Hr as [oc initial q Hc Hvs Hnew|k q Hr IH Hk].
    - by eapply wellFormed_new.
    - by apply wellFormed_after. }
  by eapply heapFrom_heapOrdered.
Qed.

Lemma ordered_values c a b :
  ordered c a b -> exists z, c (value a) (value b) = Normal z /\ z <= 0.
Proof.
  intros (z & Hz & Hle). unfold order in Hz.
  destruct (c (value a) (value b)) as [x|e]; [|done].
  exists x. split; [done|]. injection Hz as <-. destruct (Z.eqb_spec x 0); lia.
Qed.

(** A queue constructed without initial values has the initial fields. *)
Lemma new_without_initial (oc : option (Comparator T)) :
  new oc None = Normal (emptyQueue oc).
Proof. reflexivity. Qed.

(** C5. For any instance and any comparator [c2] that keeps the
    contract on the stored values, [setComparator(c2)] returns, keeps
    the stored entries, and leaves the storage a heap under [c2] (ids
    breaking ties); the next [dequeue()] then returns a stored value
    that is minimal under [c2] -- its entry is ordered before or equal
    to every stored entry -- whatever the comparator was before. *)
Theorem setComparator_reheapifies dom c2 q :
  TotalPreorderOn dom c2 -> valuesIn dom (heap q) ->
  exists q', setComparator c2 q = (Normal tt, q') /\
    comparator q' = c2 /\ seq q' = seq q /\ heap q' ≡ₚ heap q /\
    heapProperty q' /\
    (heap q <> [] ->
     exists m q'', dequeue q' = (Normal (Some (value m)), q'') /\
       m ∈ heap q /\
       forall e, e ∈ heap q ->
         ordered c2 m e /\
         exists z, c2 (value m) (value e) = Normal z /\ z <= 0).
Proof.
  intros Hc Hv. unfold setComparator.
  destruct (heapify_heap dom (setComparatorField q c2)) as (q' & -> & (Hc' & Hs' & Hp') & Hh');
    [done | done |].
  simpl in Hc', Hs', Hp', Hh'.
  assert (valuesIn dom (heap q')) as Hv' by (by eapply valuesIn_Permutation).
  exists q'. split; [done|]. split; [done|]. split; [done|]. split; [done|].
  split.
  { unfold heapProperty. rewrite Hc'. by eapply heapFrom_heapOrdered. }
  intros Hne. destruct (heap q') as [|m rest] eqn:Hq'.
  { apply Permutation_nil in Hp'. done. }
  rewrite <- Hq' in Hh', Hv', Hp'. rewrite <- Hc' in Hc, Hh'.
  destruct (dequeue_heap dom q' m rest Hc Hv' Hh' Hq') as (q'' & Hrun & _).
  exists m, q''. split; [done|].
  assert (m ∈ heap q) as Hm by (rewrite <- Hp', Hq'; by left).
  split; [done|]. intros e He. rewrite <- Hc'.
  assert (ordered (comparator q') m e) as Hord.
  { apply (ordZ_ordered dom); auto.
    apply (heap_root_least dom (comparator q') (heap q') m); auto.
    - by rewrite Hq'.
    - by rewrite Hp'. }
  split; [done | by apply ordered_values].
Qed.

(** On a well-formed instance the sorted snapshot is what dequeuing
    the instance itself until empty would return, and the instance is
    not touched. *)
Lemma toSortedArray_dequeueAll dom q :
  wellFormed dom q -> toSortedArray q = (fst (dequeueAll q), q).
Proof.
  intros (Hc & Hv & Hh). unfold toSortedArray. rewrite copy_is_same.
  unfold bind. by rewrite (heapify_fixed dom).
Qed.


Lemma NoDup_id_inj h a b :
  NoDup (map id h) -> a ∈ h -> b ∈ h -> id a = id b -> a = b.
Proof.
  induction h as [|x h IH]; simpl; intros Hnd Ha Hb Hid.
  { by apply elem_of_nil in Ha. }
  apply NoDup_cons in Hnd as [Hx Hnd].
  apply elem_of_cons in Ha as [->|Ha]; apply elem_of_cons in Hb as [->|Hb]; auto.
  - exfalso. apply Hx. rewrite Hid. by apply list_elem_of_fmap_2.
  - exfalso. apply Hx. rewrite <- Hid. by apply list_elem_of_fmap_2.
Qed.

Lemma entriesFrom_NoDup vs : forall s, NoDup (map id (entriesFrom s vs)).
Proof.
  induction vs as [|v vs IH]; intros s; simpl; constructor; [|done].
  intros (e & He & Hin)%list_elem_of_fmap. apply entriesFrom_ids in Hin.
  simpl in He. lia.
Qed.

Lemma entriesFrom_sorted c vs :
  (forall a b, a ∈ vs -> b ∈ vs -> c a b = Normal 0) ->
  forall s, StronglySorted (fun a b => ordZ c a b <= 0) (entriesFrom s vs).
Proof.
  intros Hz. induction vs as [|v vs IH]; intros s; simpl; constructor.
  - apply IH. intros a b Ha Hb. apply Hz; by right.
  - apply Forall_forall. intros e He.
    pose proof (entriesFrom_ids _ _ _ He). pose proof (entriesFrom_elem _ _ _ He).
    unfold ordZ, order. simpl. rewrite Hz; [simpl; lia | by left | by right].
Qed.

(** C2. If the comparator [c] returns zero on every pair of the values
    [vs], then enqueuing them all into a queue constructed with [c] and
    dequeuing until the queue is empty returns [vs] itself: the values
    in their enqueue order. *)
Theorem equal_values_leave_in_enqueue_order c vs :
  (forall a b, a ∈ vs -> b ∈ vs -> c a b = Normal 0) ->
  exists q q',
    enqueueAll vs (emptyQueue (Some c)) = (Normal tt, q) /\
    dequeueAll q = (Normal vs, q') /\ heap q' = [].
Proof.
  intros Hz. set (dom := fun v => v ∈ vs).
  assert (TotalPreorderOn dom c) as Hc.
  { split.
    - intros a b Ha Hb. exists 0. by apply Hz.
    - intros a b x y Ha Hb. rewrite !Hz by done. by intros [= <-] [= <-].
    - intros a b d x y z Ha Hb Hd. rewrite !Hz by done. intros _ _ [= <-]. lia. }
  assert (wellFormed dom (emptyQueue (Some c))) as Hwf0.
  { split; [done|]. split.
    - intros x Hx. by apply elem_of_nil in Hx.
    - intros i p e _ _ _ He. apply at_index_range in He. simpl in He. lia. }
  destruct (enqueueAll_heap dom vs (emptyQueue (Some c)))
    as (q & Hrun & Hwf & Hcq & _ & Hp); [done | by apply Forall_forall |].
  simpl in Hp, Hcq. destruct Hwf as (Hcq' & Hv & Hh).
  destruct (dequeueAll_loop_sorted dom (length (heap q)) q [] Hcq' Hv Hh)
    as (D & q' & Hdeq & Hempty & _ & _ & HpD & Hsort); [lia|].
  rewrite Hcq in Hsort.
  assert (D = entriesFrom 0 vs) as ->.
  { eapply StronglySorted_unique_strong; [| apply Hsort | by apply entriesFrom_sorted
                                          | by rewrite HpD, Hp].
    intros x1 x2 H1 H2 R12 R21. cbn beta in R12, R21.
    assert (x1 ∈ entriesFrom 0 vs) as H1' by (by rewrite <- Hp, <- HpD).
    apply (NoDup_id_inj (entriesFrom 0 vs)); auto using entriesFrom_NoDup.
    assert (dom (value x1)) by (by eapply entriesFrom_elem).
    assert (dom (value x2)) by (by eapply entriesFrom_elem).
    apply (ordZ_zero_id dom c Hc); auto.
    pose proof (ordZ_sgn dom c Hc x1 x2 ltac:(done) ltac:(done)). lia. }
  exists q, q'. split; [done|]. split; [|done].
  unfold dequeueAll. rewrite Hdeq. by rewrite entriesFrom_values.
Qed.

Lemma strict_total_order dom c h :
  TotalPreorderOn dom c -> valuesIn dom h -> NoDup (map id h) ->
  StrictTotalOrderOn c h.
Proof.
  intros Hc Hv Hnd. split.
  - intros a Ha Hlt%before_ordZ.
    pose proof (ordZ_sgn dom c Hc a a (Hv a Ha) (Hv a Ha)). lia.
  - intros a b d Ha Hb Hd Hab%before_ordZ Hbd%before_ordZ.
    apply (ordZ_before dom); auto.
    pose proof (ordZ_trans dom c Hc a b d (Hv a Ha) (Hv b Hb) (Hv d Hd)) as Hle.
    destruct (decide (ordZ c a d = 0)) as [Hz|Hnz]; [|lia].
    pose proof (ordZ_sgn dom c Hc a d (Hv a Ha) (Hv d Hd)).
    pose proof (ordZ_sgn dom c Hc b d (Hv b Hb) (Hv d Hd)).
    pose proof (ordZ_trans dom c Hc d a b (Hv d Hd) (Hv a Ha) (Hv b Hb)). lia.
  - intros a b Ha Hb Hne.
    destruct (decide (ordZ c a b = 0)) as [Hz|Hnz].
    { exfalso. apply Hne. apply (NoDup_id_inj h); auto.
      by apply (ordZ_zero_id dom c Hc); auto. }
    pose proof (ordZ_sgn dom c Hc a b (Hv a Ha) (Hv b Hb)).
    destruct (Z.lt_ge_cases (ordZ c a b) 0).
    + left. apply (ordZ_before dom); auto.
    + right. apply (ordZ_before dom); auto. lia.
Qed.

(** C10. In every instance reachable through the constructor and any
    sequence of public calls, with any comparators and values (also
    after calls that threw), the insertion ids of the stored entries are
    pairwise distinct and each is below the sequence counter; and so,
    whenever the active comparator keeps the contract on the stored
    values, the order by (comparator result, then id) is a strict total
    order on the stored entries. *)
Theorem ids_fresh_reachable q :
  reachable (fun _ => True) (fun _ => True) q ->
  idsFresh q /\
  (TotalPreorderOn (fun v => exists e, e ∈ heap q /\ value e = v) (comparator q) ->
   StrictTotalOrderOn (comparator q) (heap q)).
Proof.
  intros Hr. assert (idsFresh q) as Hf.
  { induction Hr as [oc initial q _ _ Hnew|k q Hr IH _].
    - assert (idsFresh (emptyQueue oc)) as H0' by (split; constructor).
      destruct initial as [vs|]; simpl in Hnew; [|by injection Hnew as <-].
      destruct (enqueueAll vs (emptyQueue oc)) as [[[]|e] q'] eqn:Hrun; [|done].
      injection Hnew as <-. by eapply idsFresh_enqueueAll.
    - by apply idsFresh_after. }
  split; [done|]. intros Hc.
  eapply strict_total_order; [done | | apply Hf].
  intros e He. by exists e.
Qed.






End QueueTheory.

(** * Further properties of the queue *)

(** X12. [getParent] undoes [getLeft] and [getRight]; the children of a
    non-negative index are two distinct later indices; every positive
    index is the left or the right child of its parent, which is an
    earlier non-negative index. *)
Theorem child_parent_round_trip :
  (forall i, getParent (getLeft i) = i /\ getParent (getRight i) = i) /\
  (forall i, 0 <= i -> i < getLeft i < getRight i) /\
  (forall k, 0 < k ->
     0 <= getParent k < k /\
     (k = getLeft (getParent k) \/ k = getRight (getParent k))).
Proof.
  split; [|split].
  - intros i. split; [apply getParent_getLeft | apply getParent_getRight].
  - intros i Hi. unfold getLeft, getRight. lia.
  - intros k Hk. split; [by apply getParent_range | apply child_of_parent].
Qed.

Section QueueMore.
Context {T : Type} `{JsTypeof T} `{Collation}.
Implicit Types (h : list (@Entry T)) (q : @PriorityQueue T) (c : Comparator T)
  (vs : list T).

Lemma reachable_wellFormed dom q :
  reachable (TotalPreorderOn dom) dom q -> wellFormed dom q.
Proof.
  induction 1 as [oc initial q Hc Hvs Hnew|k q Hr IH Hk].
  - by eapply wellFormed_new.
  - by apply wellFormed_after.
Qed.

Lemma wellFormed_of_heapProperty dom q :
  TotalPreorderOn dom (comparator q) -> valuesIn dom (heap q) ->
  heapProperty q -> wellFormed dom q.
Proof. intros Hc Hv Hh. split; [done|]. split; [done|]. by apply heapOrdered_heapFrom. Qed.


(** X1. On a non-empty heap under a comparator that keeps the contract,
    [dequeue()] returns a value whose entry is ordered before or equal
    to every stored entry, removes exactly that entry, and leaves a
    heap again. *)
Theorem dequeue_returns_least dom q :
  TotalPreorderOn dom (comparator q) -> valuesIn dom (heap q) ->
  heapProperty q -> heap q <> [] ->
  exists m q', dequeue q = (Normal (Some (value m)), q') /\
    m :: heap q' ≡ₚ heap q /\
    comparator q' = comparator q /\ seq q' = seq q /\
    heapProperty q' /\
    forall e, e ∈ heap q -> ordered (comparator q) m e.
Proof.
  intros Hc Hv Hh Hne. apply heapOrdered_heapFrom in Hh.
  destruct (heap q) as [|m rest] eqn:Hq; [done|]. rewrite <- Hq in Hh, Hv.
  destruct (dequeue_heap dom q m rest Hc Hv Hh Hq) as (q' & Hrun & Hc' & Hs' & Hp' & Hh').
  exists m, q'. rewrite Hq in Hp'. split; [done|]. split; [done|]. split; [done|].
  split; [done|]. split.
  - unfold heapProperty. rewrite Hc'. apply (heapFrom_heapOrdered dom); auto.
    intros x Hx. apply Hv. rewrite Hq, <- Hp'. by right.
  - intros e He. apply (ordZ_ordered dom); auto.
    + apply Hv. rewrite Hq. by left.
    + apply Hv. by rewrite Hq.
    + apply (heap_root_least dom (comparator q) (heap q) m); auto; by rewrite Hq.
Qed.

(** X3. [dequeue()] is not atomic either: when it throws, the exception
    is the comparator's, and the root entry -- the value that was
    about to be returned -- is already gone from the storage. *)
Theorem dequeue_not_atomic q e q' :
  dequeue q = (Throw e, q') ->
  exists top rest, heap q = top :: rest /\
    top :: heap q' ≡ₚ heap q /\
    fst (size q') = Normal (Z.of_nat (length (heap q)) - 1) /\
    comparator q' = comparator q /\ seq q' = seq q /\
    raisedBy q (heap q) e.
Proof.
  intros Hrun. destruct (heap q) as [|top rest] eqn:Hq.
  { by rewrite dequeue_empty in Hrun. }
  destruct (dequeue_any q top rest Hq) as (o & q1 & Hrun1 & Hc & Hs & Hp & Ho).
  rewrite Hrun in Hrun1. injection Hrun1 as <- <-.
  destruct Ho as [?|(e' & [= <-] & He)]; [done|].
  exists top, rest. rewrite Hq in Hp, He. split; [done|]. split; [done|].
  split; [|done].
  unfold size, heapLength. simpl. apply Permutation_length in Hp. simpl in Hp.
  f_equal. lia.
Qed.


(** X7. If [setComparator(c)] throws, the exception is one [c] threw on
    two stored values; [c] is installed all the same, and the storage
    still holds the same entries, in some order. *)
Theorem setComparator_not_atomic c q e q' :
  setComparator c q = (Throw e, q') ->
  comparator q' = c /\ seq q' = seq q /\ heap q' ≡ₚ heap q /\
  exists a b, a ∈ heap q /\ b ∈ heap q /\ c (value a) (value b) = Throw e.
Proof.
  intros Hrun. destruct (setComparator_any c q) as (o & q1 & Hrun1 & Hc & Hs & Hp & Ht).
  rewrite Hrun in Hrun1. injection Hrun1 as <- <-.
  split; [done|]. split; [done|]. split; [done|].
  destruct (Ht e eq_refl) as (a & b & Ha & Hb & Hab). exists a, b.
  split; [done|]. split; [done|]. unfold order in Hab. simpl in Hab.
  by destruct (c (value a) (value b)).
Qed.

(** X6. If [toSortedArray()] throws, the exception is one the comparator
    threw on two stored values, and the queue is as it was. *)
Theorem toSortedArray_throws_comparator_error q e q' :
  toSortedArray q = (Throw e, q') ->
  q' = q /\
  exists a b, a ∈ heap q /\ b ∈ heap q /\ comparator q (value a) (value b) = Throw e.
Proof.
  intros Hrun. destruct (toSortedArray_any q) as (o & Hrun1 & Ht).
  rewrite Hrun in Hrun1. injection Hrun1 as <- ->. split; [done|].
  destruct (Ht e eq_refl) as (a & b & Ha & Hb & Hab). exists a, b.
  split; [done|]. split; [done|]. unfold order in Hab.
  by destruct (comparator q (value a) (value b)).
Qed.

(** *** Sorted lists *)

Lemma StronglySorted_mono {A} (R R' : A -> A -> Prop) (l : list A) :
  (forall a b, R a b -> R' a b) -> StronglySorted R l -> StronglySorted R' l.
Proof.
  intros Himp. induction 1 as [|x l Hl IH Hx]; constructor; [done|].
  eapply Forall_impl; [done|]. auto.
Qed.

Lemma StronglySorted_with {A} (Q : A -> Prop) (R : A -> A -> Prop) (l : list A) :
  Forall Q l -> StronglySorted R l ->
  StronglySorted (fun a b => Q a /\ Q b /\ R a b) l.
Proof.
  intros HQ. induction 1 as [|x l Hl IH Hx]; constructor.
  - apply IH. by apply Forall_cons in HQ as [_ ?].
  - apply Forall_cons in HQ as [Qx Ql]. rewrite Forall_forall in *. auto.
Qed.

Lemma StronglySorted_filter {A} (P : A -> Prop) `{forall x, Decision (P x)}
    (R : A -> A -> Prop) (l : list A) :
  StronglySorted R l -> StronglySorted R (filter P l).
Proof.
  induction 1 as [|x l Hl IH Hx]; [constructor|].
  rewrite filter_cons. destruct (decide (P x)); [|done].
  constructor; [done|]. rewrite Forall_forall in *.
  intros y [_ Hy]%list_elem_of_filter. auto.
Qed.

Lemma filter_map_value (P : T -> Prop) `{forall v, Decision (P v)} h :
  filter P (map value h) = map value (filter (fun e => P (value e)) h).
Proof.
  induction h as [|e h IH]; [done|]. simpl. rewrite !filter_cons, IH.
  by destruct (decide (P (value e))).
Qed.

Lemma sorted_values dom c h :
  TotalPreorderOn dom c -> valuesIn dom h ->
  StronglySorted (fun a b => ordZ c a b <= 0) h ->
  StronglySorted (fun a b => dom a /\ dom b /\ notAfter c a b) (map value h).
Proof.
  intros Hc Hv Hs.
  apply (StronglySorted_fmap value
           (fun a b => (dom (value a) /\ dom (value b) /\ ordZ c a b <= 0))).
  - intros a b (Da & Db & Hab). split; [done|]. split; [done|].
    apply ordered_values. by apply (ordZ_ordered dom).
  - apply (StronglySorted_with (fun e => dom (value e))); [|done].
    by apply Forall_forall.
Qed.

(** X5. [toSortedArray()] sorts whatever the storage holds: under a
    comparator that keeps the contract on the stored values it returns
    the stored values, each as often as stored, in an order in which no
    value comes after a later one; the queue is not changed. *)
Theorem toSortedArray_sorted_permutation dom q :
  TotalPreorderOn dom (comparator q) -> valuesIn dom (heap q) ->
  exists out, toSortedArray q = (Normal out, q) /\
    out ≡ₚ map value (heap q) /\
    StronglySorted (notAfter (comparator q)) out.
Proof.
  intros Hc Hv. unfold toSortedArray. rewrite copy_is_same. unfold bind.
  destruct (heapify_heap dom q Hc Hv) as (q1 & -> & (Hc1 & _ & Hp1) & Hh1).
  assert (valuesIn dom (heap q1)) as Hv1 by (by eapply valuesIn_Permutation).
  rewrite <- Hc1 in Hc, Hh1.
  destruct (dequeueAll_loop_sorted dom (length (heap q1)) q1 [] Hc Hv1 Hh1)
    as (D & q' & Hdeq & _ & _ & _ & HpD & Hsort); [lia|].
  unfold dequeueAll. rewrite Hdeq. simpl. exists (map value D).
  split; [done|]. split; [by rewrite HpD, Hp1|].
  rewrite Hc1 in *.
  eapply StronglySorted_mono; [|apply (sorted_values dom); eauto].
  - by intros a b (_ & _ & Hab).
  - intros e He. apply Hv1. by rewrite <- HpD.
Qed.

(** X8. Installing the comparator that is already active changes nothing:
    on a heap the re-heapify pass of [setComparator] moves no entry. *)
Theorem setComparator_same_is_identity dom q :
  TotalPreorderOn dom (comparator q) -> valuesIn dom (heap q) ->
  heapProperty q ->
  setComparator (comparator q) q = (Normal tt, q).
Proof.
  intros Hc Hv Hh. unfold setComparator.
  assert (setComparatorField q (comparator q) = q) as -> by (by destruct q).
  apply (heapify_fixed dom); auto. by apply heapOrdered_heapFrom.
Qed.

(** X9. Under the comparator contract no public call throws: on every
    reachable instance, every call with a value of [dom] or a
    comparator keeping the contract returns normally. *)
Theorem calls_return_under_contract dom k q :
  reachable (TotalPreorderOn dom) dom q ->
  callWith (TotalPreorderOn dom) dom k ->
  exceptionOf k q = None.
Proof.
  intros Hr Hk. destruct (reachable_wellFormed dom q Hr) as (Hc & Hv & Hh).
  destruct k; simpl in *; try done.
  - by destruct (enqueue_heap dom v q Hc Hv Hk Hh) as (q' & -> & _).
  - destruct (heap q) as [|top rest] eqn:Hq.
    + by rewrite dequeue_empty.
    + rewrite <- Hq in Hv, Hh.
      by destruct (dequeue_heap dom q top rest Hc Hv Hh Hq) as (q' & -> & _).
  - rewrite (toSortedArray_dequeueAll dom) by done.
    destruct (dequeueAll_loop_sorted dom (length (heap q)) q [] Hc Hv Hh)
      as (D & q' & Hdeq & _); [lia|].
    unfold dequeueAll, thrown. by rewrite Hdeq.
  - unfold setComparator.
    by destruct (heapify_heap dom (setComparatorField q c)) as (q' & -> & _).
Qed.

Lemma entriesFrom_id_sorted vs :
  forall s, StronglySorted (fun a b => id a < id b) (entriesFrom s vs).
Proof.
  induction vs as [|v vs IH]; intros s; simpl; constructor; [done|].
  apply Forall_forall. intros e He%entriesFrom_ids. simpl. lia.
Qed.

Lemma ties_are_mutual dom c x a b :
  TotalPreorderOn dom c -> dom x -> dom a -> dom b ->
  tiesWith c x a -> tiesWith c x b -> c a b = Normal 0.
Proof.
  intros Hc Dx Da Db. unfold tiesWith.
  destruct (tpo_returns _ _ Hc a x Da Dx) as [ax Hax].
  destruct (tpo_returns _ _ Hc b x Db Dx) as [bx Hbx].
  destruct (tpo_returns _ _ Hc x a Dx Da) as [xa Hxa].
  destruct (tpo_returns _ _ Hc x b Dx Db) as [xb Hxb].
  destruct (tpo_returns _ _ Hc a b Da Db) as [ab Hab].
  destruct (tpo_returns _ _ Hc b a Db Da) as [ba Hba].
  rewrite Hax, Hbx. intros ->%Is_true_true%Z.eqb_eq ->%Is_true_true%Z.eqb_eq.
  pose proof (tpo_sgn _ _ Hc _ _ _ _ Da Dx Hax Hxa) as S1%sgn_opposite.
  pose proof (tpo_sgn _ _ Hc _ _ _ _ Db Dx Hbx Hxb) as S2%sgn_opposite.
  pose proof (tpo_sgn _ _ Hc _ _ _ _ Da Db Hab Hba) as S3%sgn_opposite.
  pose proof (tpo_trans _ _ Hc _ _ _ _ _ _ Da Dx Db Hax Hxb Hab).
  pose proof (tpo_trans _ _ Hc _ _ _ _ _ _ Db Dx Da Hbx Hxa Hba).
  rewrite Hab. f_equal. lia.
Qed.

(** X10. Stability in general: after enqueuing [vs] under a comparator that
    keeps the contract on them, dequeuing until empty returns [vs]
    sorted, and for every value [x] of [vs] the values that the
    comparator takes for equal to [x] come out in the order in which
    they were enqueued, whatever else is in the queue. *)
Theorem equal_values_keep_enqueue_order c vs :
  TotalPreorderOn (fun v => v ∈ vs) c ->
  exists q out q',
    enqueueAll vs (emptyQueue (Some c)) = (Normal tt, q) /\
    dequeueAll q = (Normal out, q') /\
    out ≡ₚ vs /\ StronglySorted (notAfter c) out /\
    forall x, x ∈ vs ->
      filter (fun v => tiesWith c x v) out = filter (fun v => tiesWith c x v) vs.
Proof.
  intros Hc. set (dom := fun v => v ∈ vs).
  assert (wellFormed dom (emptyQueue (Some c))) as Hwf0.
  { split; [done|]. split.
    - intros x Hx. by apply elem_of_nil in Hx.
    - intros i p e _ _ _ He. apply at_index_range in He. simpl in He. lia. }
  destruct (enqueueAll_heap dom vs (emptyQueue (Some c)))
    as (q & Hrun & Hwf & Hcq & _ & Hp); [done | by apply Forall_forall |].
  simpl in Hp, Hcq. destruct Hwf as (Hcq' & Hv & Hh).
  destruct (dequeueAll_loop_sorted dom (length (heap q)) q [] Hcq' Hv Hh)
    as (D & q' & Hdeq & _ & _ & _ & HpD & Hsort); [lia|].
  rewrite Hcq in Hsort.
  assert (D ≡ₚ entriesFrom 0 vs) as HDE by (by rewrite HpD).
  assert (valuesIn dom D) as HvD.
  { intros e He. apply Hv. by rewrite <- HpD. }
  exists q, (map value D), q'. split; [done|].
  split; [unfold dequeueAll; by rewrite Hdeq|].
  split.
  { by rewrite HDE, entriesFrom_values. }
  split.
  { eapply StronglySorted_mono; [|exact (sorted_values dom c D Hc HvD Hsort)].
    by intros a b (_ & _ & Hab). }
  intros x Hx.
  replace (filter (fun v => tiesWith c x v) vs)
    with (filter (fun v => tiesWith c x v) (map value (entriesFrom 0 vs)))
    by (by rewrite entriesFrom_values).
  rewrite !filter_map_value. f_equal.
  set (P := fun e : Entry => tiesWith c x (value e)).
  eapply (StronglySorted_unique_strong (fun a b => ordZ c a b <= 0)).
  - intros x1 x2 [_ H1]%list_elem_of_filter [_ H2]%list_elem_of_filter R12 R21.
    rewrite HDE in H1.
    apply (NoDup_id_inj (entriesFrom 0 vs)); auto using entriesFrom_NoDup.
    assert (dom (value x1)) by (by eapply entriesFrom_elem).
    assert (dom (value x2)) by (by eapply entriesFrom_elem).
    apply (ordZ_zero_id dom c Hc); auto.
    pose proof (ordZ_sgn dom c Hc x1 x2 ltac:(done) ltac:(done)). lia.
  - by apply StronglySorted_filter.
  - apply (StronglySorted_mono
             (fun a b => (P a /\ dom (value a)) /\ (P b /\ dom (value b)) /\ id a < id b)).
    + intros a b ((Pa & Da) & (Pb & Db) & Hid). unfold ordZ, order.
      rewrite (ties_are_mutual dom c x (value a) (value b)) by done. simpl. lia.
    + apply StronglySorted_with.
      * apply Forall_forall. intros e [He Hin]%list_elem_of_filter.
        split; [done|]. by eapply entriesFrom_elem.
      * apply StronglySorted_filter, entriesFrom_id_sorted.
  - by rewrite HDE.
Qed.

Lemma at_index_nat h (k : nat) : at_index h (Z.of_nat k) = h !! k.
Proof.
  unfold at_index. destruct (Z.ltb_spec (Z.of_nat k) 0); [lia|]. by rewrite Nat2Z.id.
Qed.

(** X13. [swap] is its own inverse: exchanging two occupied slots twice
    gives back the storage; one exchange puts each entry in the other's
    slot and touches no other slot. *)
Theorem swap_twice_is_identity a b q x y :
  at_index (heap q) a = Some x -> at_index (heap q) b = Some y ->
  exists q1, swap a b q = (Normal tt, q1) /\
    at_index (heap q1) a = Some y /\ at_index (heap q1) b = Some x /\
    (forall k, k <> a -> k <> b -> at_index (heap q1) k = at_index (heap q) k) /\
    swap a b q1 = (Normal tt, q).
Proof.
  intros Ha Hb. rewrite (swap_defined _ _ _ _ _ Ha Hb).
  set (h1 := <[Z.to_nat b := x]> (<[Z.to_nat a := y]> (heap q))).
  assert (forall k, at_index h1 k =
                    if k =? b then Some x else if k =? a then Some y else at_index (heap q) k)
    as Hat by (intros k; by apply at_index_exchanged).
  assert (at_index h1 a = Some y) as Ha1.
  { rewrite Hat, Z.eqb_refl. destruct (Z.eqb_spec a b) as [->|]; [|done]. congruence. }
  assert (at_index h1 b = Some x) as Hb1 by (by rewrite Hat, Z.eqb_refl).
  exists (setHeap q h1). split; [done|]. split; [done|]. split; [done|]. split.
  { intros k Hka Hkb. simpl. rewrite Hat.
    by destruct (Z.eqb_spec k b), (Z.eqb_spec k a). }
  rewrite (swap_defined a b (setHeap q h1) y x Ha1 Hb1). f_equal.
  destruct q as [h c s]. unfold setHeap. simpl in *. f_equal.
  apply list_eq. intros k. rewrite <- !at_index_nat.
  rewrite (at_index_exchanged _ _ _ _ _ _ Ha1 Hb1).
  destruct (Z.eqb_spec (Z.of_nat k) b) as [->|]; [done|].
  destruct (Z.eqb_spec (Z.of_nat k) a) as [->|]; [done|].
  rewrite Hat. by destruct (Z.eqb_spec (Z.of_nat k) b), (Z.eqb_spec (Z.of_nat k) a).
Qed.



Lemma dequeueAll_loop_accumulates fuel : forall out q,
  dequeueAll_loop fuel out q =
    match dequeueAll_loop fuel [] q with
    | (Normal l, q') => (Normal (out ++ l), q')
    | (Throw e, q') => (Throw e, q')
    end.
Proof.
  induction fuel as [|fuel IH]; intros out q; simpl.
  { unfold ret. by rewrite app_nil_r. }
  unfold bind, isEmpty, ret.
  destruct (Z.of_nat (length (heap q)) =? 0); [by rewrite app_nil_r|].
  destruct (dequeue q) as [[[x|]|e] q1]; try done.
  rewrite (IH (out ++ [x])), (IH ([] ++ [x])).
  destruct (dequeueAll_loop fuel [] q1) as [[l|e] q']; [|done].
  by rewrite <- app_assoc.
Qed.

(** X20. The sorted snapshot foretells the dequeues: on a heap under a
    comparator that keeps the contract, [k] calls of [dequeue()], [k]
    at most the size, return the first [k] values of what
    [toSortedArray()] returned just before, in that order. *)
Theorem dequeues_follow_sorted_snapshot dom k : forall q,
  TotalPreorderOn dom (comparator q) -> valuesIn dom (heap q) ->
  heapProperty q -> (k <= length (heap q))%nat ->
  exists sorted outs q',
    toSortedArray q = (Normal sorted, q) /\
    dequeueN k q = (Normal outs, q') /\
    outs = map Some (take k sorted).
Proof.
  assert (forall q, wellFormed dom q -> (k <= length (heap q))%nat ->
            exists sorted drained outs q',
              dequeueAll q = (Normal sorted, drained) /\
              dequeueN k q = (Normal outs, q') /\
              outs = map Some (take k sorted)) as Hmain.
  { induction k as [|k IH]; intros q (Hc & Hv & Hh) Hk.
    - destruct (dequeueAll_loop_sorted dom (length (heap q)) q [] Hc Hv Hh)
        as (D & q' & Hdeq & _); [lia|].
      exists (map value D), q', [], q. split; [done|]. by rewrite take_0.
    - assert (exists l, heap q = l) as [[|top rest] Hq] by eauto.
      { rewrite Hq in Hk. simpl in Hk. lia. }
      destruct (dequeue_heap dom q top rest Hc Hv Hh Hq) as (q1 & Hrun & Hc1 & _ & Hp1 & Hh1).
      assert (wellFormed dom q1) as Hwf1.
      { rewrite <- Hc1 in Hc, Hh1. split; [done|]. split; [|done].
        intros x Hx. apply Hv. rewrite <- Hp1. by right. }
      apply Permutation_length in Hp1. simpl in Hp1.
      destruct (IH q1 Hwf1) as (sorted1 & drained & outs1 & q' & Hall1 & HN1 & Houts1); [lia|].
      exists (value top :: sorted1), drained, (Some (value top) :: outs1), q'.
      split; [|split].
      + unfold dequeueAll. rewrite <- Hp1. simpl. unfold bind, isEmpty.
        destruct (Z.eqb_spec (Z.of_nat (length (heap q))) 0); [lia|].
        rewrite Hrun, dequeueAll_loop_accumulates.
        unfold dequeueAll in Hall1. by rewrite Hall1.
      + simpl. unfold bind. by rewrite Hrun, HN1.
      + simpl. by rewrite Houts1. }
  intros q Hc Hv Hh Hk.
  assert (wellFormed dom q) as Hwf by (by apply wellFormed_of_heapProperty).
  destruct (Hmain q Hwf Hk) as (sorted & drained & outs & q' & Hall & HN & Houts).
  exists sorted, outs, q'. split; [|done].
  rewrite (toSortedArray_dequeueAll dom) by done. by rewrite Hall.
Qed.

End QueueMore.

(** * Properties of the helper functions *)

Section PluckTheory.
Context {V : Type}.
Variable getProperty : V -> string -> completion V.

Lemma splitDots_nonempty key : splitDots key <> [].
Proof.
  induction key as [|ch rest IH]; simpl; [done|].
  destruct (Ascii.eqb ch "."); [done|]. by destruct (splitDots rest).
Qed.

Lemma splitDots_no_dot key : hasDot key = false -> splitDots key = [key].
Proof.
  induction key as [|ch rest IH]; simpl; [done|].
  destruct (Ascii.eqb ch "."); simpl; [done|]. by intros ->%IH.
Qed.

Lemma splitDots_app k1 k2 :
  splitDots (String.append k1 (String "." k2)) = splitDots k1 ++ splitDots k2.
Proof.
  induction k1 as [|ch rest IH]; simpl; [done|]. rewrite IH.
  destruct (Ascii.eqb ch "."); [done|].
  pose proof (splitDots_nonempty rest). by destruct (splitDots rest).
Qed.

Lemma reduceGet_app l1 l2 (obj : V) :
  reduceGet getProperty (l1 ++ l2) obj =
    match reduceGet getProperty l1 obj with
    | Normal v => reduceGet getProperty l2 v
    | Throw e => Throw e
    end.
Proof.
  revert obj. induction l1 as [|k l1 IH]; intros obj; simpl; [done|].
  by destruct (getProperty obj k).
Qed.

(** X14. For a key without a dot, the empty key too, [pluckDeep(key)(obj)]
    is the one read [obj[key]], with whatever that read throws; it
    never returns [obj] itself unread. *)
Theorem pluckDeep_single_piece key (obj : V) :
  hasDot key = false -> pluckDeep getProperty key obj = getProperty obj key.
Proof.
  intros Hk. unfold pluckDeep. rewrite splitDots_no_dot by done. simpl.
  by destruct (getProperty obj key).
Qed.

(** X15. Paths compose: plucking [k1 + "." + k2] is plucking [k1] and then
    plucking [k2] from what that gave; if the first part throws, the
    whole throws the same and no later piece is read. *)
Theorem pluckDeep_composes k1 k2 (obj : V) :
  pluckDeep getProperty (String.append k1 (String "." k2)) obj =
    match pluckDeep getProperty k1 obj with
    | Normal v => pluckDeep getProperty k2 v
    | Throw e => Throw e
    end.
Proof. unfold pluckDeep. by rewrite splitDots_app, reduceGet_app. Qed.

End PluckTheory.

Section ObjectsTheory.
Context {V : Type}.
Variable isUndefined : V -> bool.
Implicit Types (obj data : gmap string V) (pairs : list (string * V)).

Lemma foldl_insert_lookup pairs : forall obj k,
  NoDup (pairs.*1) ->
  foldl (fun o kv => <[kv.1 := kv.2]> o) obj pairs !! k =
    match (list_to_map pairs : gmap string V) !! k with
    | Some v => Some v
    | None => obj !! k
    end.
Proof.
  induction pairs as [|[k0 v0] pairs IH]; intros obj k Hnd; simpl; [done|].
  apply NoDup_cons in Hnd as [Hk0 Hnd]. rewrite IH by done.
  destruct (decide (k = k0)) as [->|Hne].
  - rewrite not_elem_of_list_to_map_1 by done. by rewrite !lookup_insert_eq.
  - rewrite !lookup_insert_ne by done. done.
Qed.

Lemma fromEntries_lookup pairs k v :
  NoDup (pairs.*1) -> fromEntries pairs !! k = Some v <-> (k, v) ∈ pairs.
Proof.
  intros Hnd. unfold fromEntries. rewrite foldl_insert_lookup by done.
  rewrite (elem_of_list_to_map (M := gmap string) pairs k v Hnd).
  rewrite lookup_empty. by destruct (list_to_map pairs !! k).
Qed.

Lemma NoDup_fst_filter (P : string * V -> Prop) `{forall x, Decision (P x)} pairs :
  NoDup (pairs.*1) -> NoDup ((filter P pairs).*1).
Proof.
  induction pairs as [|x pairs IH]; simpl; [done|].
  intros [Hx Hnd]%NoDup_cons. rewrite filter_cons.
  destruct (decide (P x)); [|by apply IH]. simpl. apply NoDup_cons.
  split; [|by apply IH].
  intros (y & Hy & [_ Hin]%list_elem_of_filter)%list_elem_of_fmap.
  apply Hx. apply list_elem_of_fmap. by exists y.
Qed.

(** X16. [excludeKey(obj, key)] is [obj] without the property [key]: the
    key is gone, every other property keeps its value, and a key that
    [obj] does not have changes nothing. *)
Theorem excludeKey_is_delete obj key :
  excludeKey obj key = delete key obj /\
  excludeKey obj key !! key = None /\
  (forall k, k <> key -> excludeKey obj key !! k = obj !! k) /\
  (obj !! key = None -> excludeKey obj key = obj).
Proof.
  assert (excludeKey obj key = delete key obj) as Heq.
  { apply map_eq. intros k. apply option_eq. intros v. unfold excludeKey, entries.
    rewrite fromEntries_lookup
      by (apply NoDup_fst_filter, NoDup_fst_map_to_list).
    rewrite list_elem_of_filter, elem_of_map_to_list, lookup_delete_Some.
    simpl. split; intros [Hk Hv]; (split; [congruence | done]). }
  rewrite Heq. split; [done|]. split; [apply lookup_delete_eq|].
  split; [intros k Hk; by apply lookup_delete_ne|].
  apply delete_id.
Qed.

Lemma some_never_false (pairs : list (string * V)) :
  existsb (fun el : string * V => false) pairs = false.
Proof. induction pairs as [|el pairs IH]; simpl; [done | exact IH]. Qed.

(** X17. [isDefinedObject] accepts every object, one with [undefined]
    property values too: it never returns [false]. *)
Theorem isDefinedObject_always_true data : isDefinedObject data = true.
Proof.
  unfold isDefinedObject. generalize (entries data).
  induction l as [|el l IH]; simpl; [done|]. exact IH.
Qed.

Lemma reduceAssign_fromEntries pairs : forall obj,
  "__proto__" ∉ pairs.*1 ->
  reduceAssign pairs obj =
    Modelled (foldl (fun o kv => <[kv.1 := kv.2]> o) obj pairs).
Proof.
  induction pairs as [|[k v] pairs IH]; intros obj Hk; simpl; [done|].
  simpl in Hk. apply not_elem_of_cons in Hk as [Hne Hk].
  unfold assign. destruct (String.eqb_spec k "__proto__") as [->|_]; [done|].
  by apply IH.
Qed.

Lemma removeUndefined_lookup data :
  (forall v, data !! "__proto__" = Some v -> isUndefined v = true) ->
  exists r, removeUndefined isUndefined data = Modelled r /\
    (forall k v, r !! k = Some v <-> data !! k = Some v /\ isUndefined v = false).
Proof.
  intros Hproto. unfold removeUndefined.
  set (kept := filter (fun kv : string * V => isUndefined kv.2 = false) (entries data)).
  assert (NoDup (kept.*1)) as Hnd by (apply NoDup_fst_filter, NoDup_fst_map_to_list).
  rewrite reduceAssign_fromEntries; cycle 1.
  { intros ([k v] & Hk & [Hv Hin]%list_elem_of_filter)%list_elem_of_fmap.
    simpl in Hk, Hv. subst k. apply elem_of_map_to_list in Hin.
    apply Hproto in Hin. congruence. }
  unfold isDefinedObject. rewrite some_never_false. simpl. eexists. split; [done|].
  intros k v. fold (fromEntries kept). rewrite fromEntries_lookup by done.
  unfold kept, entries.
  rewrite list_elem_of_filter, elem_of_map_to_list. simpl. tauto.
Qed.

(** X18. On an object with no own defined ["__proto__"] property,
    [removeUndefined(data)] is [data] without the properties whose
    value is [undefined]: those keys are gone and every other property
    keeps its value.  The fallback [return data] is never taken. *)
Theorem removeUndefined_filters data :
  (forall v, data !! "__proto__" = Some v -> isUndefined v = true) ->
  exists r, removeUndefined isUndefined data = Modelled r /\
    r = filter (fun kv => isUndefined kv.2 = false) data /\
    (forall k v, r !! k = Some v <-> data !! k = Some v /\ isUndefined v = false).
Proof.
  intros Hproto. destruct (removeUndefined_lookup data Hproto) as (r & Hrun & Hlook).
  exists r. split; [done|]. split; [|done].
  apply map_eq. intros k. apply option_eq. intros v.
  rewrite map_lookup_filter_Some. apply Hlook.
Qed.

(** X19. [removeUndefined] is idempotent: applied to its own result it
    returns that result. *)
Theorem removeUndefined_idempotent data r :
  removeUndefined isUndefined data = Modelled r ->
  (forall v, data !! "__proto__" = Some v -> isUndefined v = true) ->
  removeUndefined isUndefined r = Modelled r.
Proof.
  intros Hrun Hproto.
  destruct (removeUndefined_lookup data Hproto) as (r1 & Hrun1 & Hl1).
  rewrite Hrun in Hrun1. injection Hrun1 as <-.
  destruct (removeUndefined_lookup r) as (r2 & -> & Hl2).
  { intros v Hv. apply Hl1 in Hv as [Hv _]. by apply Hproto. }
  f_equal. apply map_eq. intros k. apply option_eq. intros v.
  rewrite Hl2, Hl1. tauto.
Qed.

End ObjectsTheory.

(** ** Examples at the sample instances *)

Import Sample.

(** The scenario of [main]: the twelve items leave by priority, and in
    enqueue order within a priority; [peek()] on the queue drained by
    the loop is [null]. *)
Example main_dequeue_order :
  let q := snd (enqueueAll mainItems (emptyQueue (Some byPriority))) in
  fst (enqueueAll mainItems (emptyQueue (Some byPriority))) = Normal tt /\
  fst (dequeueAll q) =
    Normal [(0, "June"); (0, "Mike"); (0, "James");
            (1, "Joe"); (1, "Anne"); (1, "Lucius"); (1, "Mina");
            (1, "Lucene"); (1, "Henry");
            (2, "Carmen"); (2, "Luna"); (3, "Lisana")]%string /\
  fst (peek (snd (dequeueAll q))) = Normal None.
Proof. vm_compute. repeat split. Qed.

(** Without the comparator contract the heap property is not kept: a
    comparator that answers "after" to every question. *)
Example contract_is_needed :
  let alwaysAfter : Comparator Z := fun _ _ => Normal 1 in
  let q := snd (enqueueAll [1; 2] (emptyQueue (Some alwaysAfter))) in
  map value (heap q) = [1; 2] /\
  order alwaysAfter (mkEntry 1 0) (mkEntry 2 1) = Normal 1.
Proof. vm_compute. split; reflexivity. Qed.

(** After [setComparator((a, b) => b - a)] the queue of [5, 1, 4]
    gives out 5 first, where it would have given out 1. *)
Example setComparator_changes_minimum :
  fst (dequeue threeNumbers) = Normal (Some 1) /\
  fst (dequeue (snd (setComparator byReverseDifference threeNumbers))) = Normal (Some 5).
Proof. vm_compute. split; reflexivity. Qed.

Lemma byDifference_contract dom : TotalPreorderOn dom byDifference.
Proof.
  split; unfold byDifference.
  - intros a b _ _. by eexists.
  - intros a b x y _ _ [= <-] [= <-].
    replace (b - a) with (- (a - b)) by lia. apply Z.sgn_opp.
  - intros a b d x y z _ _ _ [= <-] [= <-] [= <-]. lia.
Qed.

Lemma byReverseDifference_contract dom : TotalPreorderOn dom byReverseDifference.
Proof.
  split; unfold byReverseDifference.
  - intros a b _ _. by eexists.
  - intros a b x y _ _ [= <-] [= <-].
    replace (a - b) with (- (b - a)) by lia. apply Z.sgn_opp.
  - intros a b d x y z _ _ _ [= <-] [= <-] [= <-]. lia.
Qed.

(** C1 at an instance: constructed from [5, 1, 4], then [enqueue(2)]
    and [dequeue()]. *)
Lemma heap_property_reachable_witness :
  heapProperty (after CallDequeue (after (CallEnqueue 2) threeNumbers)).
Proof.
  apply (heap_property_reachable (fun _ => True)).
  apply reach_call; [|exact I]. apply reach_call; [|exact I].
  apply (reach_new _ _ (Some byDifference) (Some [5; 1; 4])).
  - apply byDifference_contract.
  - intros vs [= <-]. by repeat constructor.
  - vm_compute. reflexivity.
Defined.

(** C2 at [7, 3, 9] under the comparator that calls everything equal. *)
Lemma equal_values_leave_in_enqueue_order_witness :
  exists q q',
    enqueueAll [7; 3; 9] (emptyQueue (Some allEqual)) = (Normal tt, q) /\
    dequeueAll q = (Normal [7; 3; 9], q') /\ heap q' = [].
Proof.
  apply equal_values_leave_in_enqueue_order. intros a b _ _. reflexivity.
Defined.




(** C5 at the queue of [5, 1, 4], switched to the reverse order. *)
Lemma setComparator_reheapifies_witness :
  exists q', setComparator byReverseDifference threeNumbers = (Normal tt, q') /\
    comparator q' = byReverseDifference /\ seq q' = seq threeNumbers /\
    heap q' ≡ₚ heap threeNumbers /\
    heapProperty q' /\
    (heap threeNumbers <> [] ->
     exists m q'', dequeue q' = (Normal (Some (value m)), q'') /\
       m ∈ heap threeNumbers /\
       forall e, e ∈ heap threeNumbers ->
         ordered byReverseDifference m e /\
         exists z, byReverseDifference (value m) (value e) = Normal z /\ z <= 0).
Proof.
  apply (setComparator_reheapifies (fun _ => True)).
  - apply byReverseDifference_contract.
  - intros e _. exact I.
Defined.

(** C6 at a new queue. *)
Lemma empty_queue_reads_absent_witness :
  dequeue (emptyQueue (T:=JsValue) None) = (Normal None, emptyQueue None) /\
  peek (emptyQueue (T:=JsValue) None) = (Normal None, emptyQueue None) /\
  fst (size (emptyQueue (T:=JsValue) None)) = Normal 0.
Proof. apply empty_queue_reads_absent. reflexivity. Defined.

(** C7 with three enqueues and two dequeues. *)
Lemma size_after_enqueues_dequeues_witness :
  exists q1 outs q2,
    enqueueAll [5; 1; 4] (emptyQueue (Some byDifference)) = (Normal tt, q1) /\
    dequeueN 2 q1 = (Normal outs, q2) /\
    fst (size q2) = Normal (Z.of_nat (length [5; 1; 4]) - Z.of_nat 2).
Proof.
  apply size_after_enqueues_dequeues.
  - intros a b. by eexists.
  - reflexivity.
  - simpl. lia.
Defined.

(** C9 at [enqueue(true)] on the default-comparator queue holding [1]. *)
Lemma enqueue_not_atomic_witness :
  fst (size numberAndBoolean) = Normal (Z.of_nat (length (heap oneNumber)) + 1) /\
  seq numberAndBoolean = seq oneNumber + 1 /\
  mkEntry (JsBoolean true) (seq oneNumber) ∈ heap numberAndBoolean /\
  heap numberAndBoolean ≡ₚ heap oneNumber ++ [mkEntry (JsBoolean true) (seq oneNumber)] /\
  raisedBy oneNumber (heap oneNumber ++ [mkEntry (JsBoolean true) (seq oneNumber)])
           (Error noComparatorMessage).
Proof.
  apply (enqueue_not_atomic (JsBoolean true) oneNumber). vm_compute. reflexivity.
Defined.

(** C10 at the queue left by an [enqueue] that threw. *)
Lemma ids_fresh_reachable_witness :
  idsFresh numberAndBoolean /\
  (TotalPreorderOn (fun v => exists e, e ∈ heap numberAndBoolean /\ value e = v)
                   (comparator numberAndBoolean) ->
   StrictTotalOrderOn (comparator numberAndBoolean) (heap numberAndBoolean)).
Proof.
  apply ids_fresh_reachable.
  apply (reach_call _ _ (CallEnqueue (JsBoolean true)) oneNumber); [|exact I].
  apply (reach_call _ _ (CallEnqueue (JsNumber 1)) (emptyQueue None)); [|exact I].
  by apply (reach_new _ _ None None).
Defined.

(** ** The further properties at the sample instances *)

Example pluckDeep_paths :
  pluckDeep readJson "a.b" nested = Normal (JsonNumber 7) /\
  pluckDeep readJson "a.x" nested = Normal JsonUndefined /\
  pluckDeep readJson "a.x.y" nested = Throw TypeError /\
  pluckDeep readJson "" nested = Normal JsonUndefined.
Proof. repeat split. Qed.

Lemma byPriority_contract dom : TotalPreorderOn dom byPriority.
Proof.
  split; unfold byPriority.
  - intros a b _ _. by eexists.
  - intros a b x y _ _ [= <-] [= <-].
    replace (b.1 - a.1) with (- (a.1 - b.1)) by lia. apply Z.sgn_opp.
  - intros a b d x y z _ _ _ [= <-] [= <-] [= <-]. lia.
Qed.

Lemma threeNumbers_heap : heapProperty threeNumbers.
Proof.
  apply (heapFrom_heapOrdered (fun _ => True)).
  - apply byDifference_contract.
  - by intros e _.
  - apply (wellFormed_new (fun _ => True) (Some byDifference) (Some [5; 1; 4])).
    + apply byDifference_contract.
    + intros vs [= <-]. by repeat constructor.
    + vm_compute. reflexivity.
Qed.


Lemma dequeue_returns_least_witness :
  exists m q', dequeue threeNumbers = (Normal (Some (value m)), q') /\
    m :: heap q' ≡ₚ heap threeNumbers /\
    comparator q' = comparator threeNumbers /\ seq q' = seq threeNumbers /\
    heapProperty q' /\
    forall e, e ∈ heap threeNumbers -> ordered (comparator threeNumbers) m e.
Proof.
  apply (dequeue_returns_least (fun _ => True)).
  - apply byDifference_contract.
  - by intros e _.
  - apply threeNumbers_heap.
  - vm_compute. discriminate.
Defined.

Lemma dequeue_not_atomic_witness :
  exists top rest, heap mixedThree = top :: rest /\
    top :: heap (snd (dequeue mixedThree)) ≡ₚ heap mixedThree /\
    fst (size (snd (dequeue mixedThree))) =
      Normal (Z.of_nat (length (heap mixedThree)) - 1) /\
    comparator (snd (dequeue mixedThree)) = comparator mixedThree /\
    seq (snd (dequeue mixedThree)) = seq mixedThree /\
    raisedBy mixedThree (heap mixedThree) (Error noComparatorMessage).
Proof.
  apply (dequeue_not_atomic mixedThree). vm_compute. reflexivity.
Defined.

Lemma setComparator_not_atomic_witness :
  comparator (snd (setComparator defaultComparator numberAndBoolean)) = defaultComparator /\
  seq (snd (setComparator defaultComparator numberAndBoolean)) = seq numberAndBoolean /\
  heap (snd (setComparator defaultComparator numberAndBoolean)) ≡ₚ heap numberAndBoolean /\
  exists a b, a ∈ heap numberAndBoolean /\ b ∈ heap numberAndBoolean /\
    defaultComparator (value a) (value b) = Throw (Error noComparatorMessage).
Proof.
  apply (setComparator_not_atomic defaultComparator numberAndBoolean).
  vm_compute. reflexivity.
Defined.

Lemma toSortedArray_throws_comparator_error_witness :
  numberAndBoolean = numberAndBoolean /\
  exists a b, a ∈ heap numberAndBoolean /\ b ∈ heap numberAndBoolean /\
    comparator numberAndBoolean (value a) (value b) = Throw (Error noComparatorMessage).
Proof.
  apply (toSortedArray_throws_comparator_error numberAndBoolean).
  vm_compute. reflexivity.
Defined.

Lemma toSortedArray_sorted_permutation_witness :
  exists out, toSortedArray unorderedNumbers = (Normal out, unorderedNumbers) /\
    out ≡ₚ map value (heap unorderedNumbers) /\
    StronglySorted (notAfter (comparator unorderedNumbers)) out.
Proof.
  apply (toSortedArray_sorted_permutation (fun _ => True)).
  - apply byDifference_contract.
  - by intros e _.
Defined.

Lemma setComparator_same_is_identity_witness :
  setComparator (comparator threeNumbers) threeNumbers = (Normal tt, threeNumbers).
Proof.
  apply (setComparator_same_is_identity (fun _ => True)).
  - apply byDifference_contract.
  - by intros e _.
  - apply threeNumbers_heap.
Defined.

Lemma calls_return_under_contract_witness :
  exceptionOf (CallSetComparator byReverseDifference)
              (after CallDequeue (after (CallEnqueue 2) threeNumbers)) = None.
Proof.
  apply (calls_return_under_contract (fun _ => True)).
  - apply reach_call; [|exact I]. apply reach_call; [|exact I].
    apply (reach_new _ _ (Some byDifference) (Some [5; 1; 4])).
    + apply byDifference_contract.
    + intros vs [= <-]. by repeat constructor.
    + vm_compute. reflexivity.
  - apply byReverseDifference_contract.
Defined.

Lemma equal_values_keep_enqueue_order_witness :
  exists q out q',
    enqueueAll mainItems (emptyQueue (Some byPriority)) = (Normal tt, q) /\
    dequeueAll q = (Normal out, q') /\
    out ≡ₚ mainItems /\ StronglySorted (notAfter byPriority) out /\
    forall x, x ∈ mainItems ->
      filter (fun v => tiesWith byPriority x v) out =
      filter (fun v => tiesWith byPriority x v) mainItems.
Proof.
  apply equal_values_keep_enqueue_order. apply byPriority_contract.
Defined.

Lemma swap_twice_is_identity_witness :
  exists q1, swap 0 2 unorderedNumbers = (Normal tt, q1) /\
    at_index (heap q1) 0 = Some (mkEntry 4 2) /\
    at_index (heap q1) 2 = Some (mkEntry 5 0) /\
    (forall k, k <> 0 -> k <> 2 ->
       at_index (heap q1) k = at_index (heap unorderedNumbers) k) /\
    swap 0 2 q1 = (Normal tt, unorderedNumbers).
Proof.
  apply (swap_twice_is_identity 0 2 unorderedNumbers); reflexivity.
Defined.


Lemma pluckDeep_single_piece_witness :
  pluckDeep readJson "a" nested = readJson nested "a".
Proof. apply pluckDeep_single_piece. reflexivity. Defined.

Lemma removeUndefined_filters_witness :
  exists r, removeUndefined isNone halfDefined = Modelled r /\
    r = filter (fun kv => isNone kv.2 = false) halfDefined /\
    (forall k v, r !! k = Some v <-> halfDefined !! k = Some v /\ isNone v = false).
Proof.
  apply removeUndefined_filters. intros v. unfold halfDefined.
  rewrite !lookup_insert_ne by done. by rewrite lookup_empty.
Defined.

Lemma removeUndefined_idempotent_witness :
  removeUndefined isNone (<["a"%string := Some 1]> ∅) =
    Modelled (<["a"%string := Some 1]> ∅).
Proof.
  apply (removeUndefined_idempotent isNone halfDefined).
  - vm_compute. reflexivity.
  - intros v. unfold halfDefined.
    rewrite !lookup_insert_ne by done. by rewrite lookup_empty.
Defined.

Lemma dequeues_follow_sorted_snapshot_witness :
  exists sorted outs q',
    toSortedArray threeNumbers = (Normal sorted, threeNumbers) /\
    dequeueN 2 threeNumbers = (Normal outs, q') /\
    outs = map Some (take 2 sorted).
Proof.
  apply (dequeues_follow_sorted_snapshot (fun _ => True)).
  - apply byDifference_contract.
  - by intros e _.
  - apply threeNumbers_heap.
  - vm_compute. lia.
Defined.
